(** * Flow plugin: PlayLevelSequence node and the Find-in-Flow search panel

    A shallow embedding of
    - [Source/Flow/Private/Nodes/World/FlowNode_PlayLevelSequence.cpp]
    - [Source/FlowEditor/Private/Find/FindInFlow.cpp]
    followed by the properties of the specification that are about them.

    Conventions of the embedding.
    - A C++ pointer that the source tests against [nullptr] somewhere is an
      [option]; dereferencing [None] is a fault, and a member function that
      can fault returns [option].
    - Engine objects that the node mutates in place (level sequences with
      their sections, sequence players) live in stores indexed by an
      identifier; the node only holds identifiers.
    - Calls into the engine or into the [UFlowNode] base class whose order
      matters are appended to a call trace, oldest first.
    - [UE_VLOG] lines are diagnostics compiled under [ENABLE_VISUAL_LOG]
      and are left out. *)

From Stdlib Require Import List Bool Arith Lia String Ascii.
#[local] Set Warnings "-register-all".
Import ListNotations.
Open Scope string_scope.
Open Scope list_scope.

(** * Engine strings *)

Module UnrealString.

Definition FString := string.

(** [TChar::ToLower]: only the letters [A] to [Z] change. *)
Definition ToLower (c : ascii) : ascii :=
  let n := nat_of_ascii c in
  if andb (Nat.leb 65 n) (Nat.leb n 90) then ascii_of_nat (n + 32) else c.

Fixpoint ToLowerString (s : FString) : FString :=
  match s with
  | EmptyString => EmptyString
  | String c s' => String (ToLower c) (ToLowerString s')
  end.

Fixpoint StartsWithIgnoreCase (s sub : FString) {struct sub} : bool :=
  match sub, s with
  | EmptyString, _ => true
  | String b sub', String a s' =>
      andb (Ascii.eqb (ToLower a) (ToLower b)) (StartsWithIgnoreCase s' sub')
  | String _ _, EmptyString => false
  end.

(** [FString::Contains(SubStr)] with its default arguments
    [ESearchCase::IgnoreCase] and [ESearchDir::FromStart].  The tokens the
    search passes are never empty. *)
Fixpoint Contains (s sub : FString) : bool :=
  orb (StartsWithIgnoreCase s sub)
      match s with
      | EmptyString => false
      | String _ s' => Contains s' sub
      end.

(** [S.Replace(TEXT(" "), TEXT(""))] *)
Fixpoint Replace_Space_Empty (s : FString) : FString :=
  match s with
  | EmptyString => EmptyString
  | String c s' =>
      if Ascii.eqb c " " then Replace_Space_Empty s' else String c (Replace_Space_Empty s')
  end.

Definition IsEmpty (s : FString) : bool :=
  match s with
  | EmptyString => true
  | String _ _ => false
  end.

(** [S.ParseIntoArray(Tokens, TEXT(" "), true)]: the pieces between
    spaces, empty pieces culled.  [cur] is the piece being read. *)
Fixpoint ParseIntoArray_from (cur : FString) (s : FString) : list FString :=
  match s with
  | EmptyString => if IsEmpty cur then [] else [cur]
  | String c s' =>
      if Ascii.eqb c " "
      then (if IsEmpty cur then ParseIntoArray_from EmptyString s'
            else cur :: ParseIntoArray_from EmptyString s')
      else ParseIntoArray_from (cur ++ String c EmptyString)%string s'
  end.

Definition ParseIntoArray (s : FString) : list FString :=
  ParseIntoArray_from EmptyString s.

End UnrealString.

(** * The node and the engine objects it drives *)

Module PlayLevelSequence.
Import UnrealString.

(** ** Engine data *)

(** [FName] values are built from strings; the text is kept as it is. *)
Definition FName := string.
Definition FSoftObjectPath := string.

Definition AssetId := nat.
Definition PlayerId := nat.
Definition NodeId := nat.

(** A store of engine objects: every identifier denotes an object. *)
Definition upd {A : Type} (f : nat -> A) (k : nat) (v : A) : nat -> A :=
  fun i => if Nat.eqb i k then v else f i.

(** Functions a static delegate can be bound to. *)
Inductive StaticFunction : Type :=
| Fn_OnSequenceEventExecuted
| Fn_OtherStatic (k : nat).

(** [Track->GetClass()]. *)
Inductive TrackClass : Type :=
| UMovieSceneFlowTrack_StaticClass
| OtherTrack_StaticClass (k : nat).

(** A section of a track.  [Cast<UMovieSceneFlowSectionBase>] succeeds on
    [FlowSection] only; such a section has its entry points
    ([GetAllEntryPoints]) and the single-cast delegate [OnEventExecuted],
    [None] when unbound. *)
Inductive UMovieSceneSection : Type :=
| FlowSection (EntryPoints : list FString) (OnEventExecuted : option StaticFunction)
| OtherSection (k : nat).

Record UMovieSceneTrack : Type := mkTrack {
  GetClass : TrackClass;
  GetAllSections : list UMovieSceneSection
}.

Record UMovieScene : Type := mkMovieScene {
  GetMasterTracks : list UMovieSceneTrack
}.

(** [GetMovieScene] returns a pointer, which [GetContextOutputs] checks. *)
Record ULevelSequence : Type := mkLevelSequence {
  GetMovieScene : option UMovieScene
}.

Inductive FMovieSceneSequencePlaybackSettings : Type :=
| DefaultPlaybackSettings
| CustomPlaybackSettings (k : nat).

(** Objects a delegate can call back: nodes of this class, or anything else. *)
Inductive UObjectPtr : Type :=
| Obj_PlayLevelSequence (n : NodeId)
| Obj_Other (k : nat).

(** Member functions a dynamic delegate can name. *)
Inductive UFunctionName : Type :=
| Fn_OnPlaybackFinished
| Fn_OtherMember (k : nat).

Record ULevelSequencePlayer : Type := mkPlayer {
  WorldContextObject : NodeId;
  PlayedSequence : AssetId;
  Settings : FMovieSceneSequencePlaybackSettings;
  OnFinished : list (UObjectPtr * UFunctionName);
  IsPlaying : bool
}.

(** The members of [UFlowNode_PlayLevelSequence] the code reads and writes.
    [Sequence] is the soft reference, [None] when [Sequence.IsNull()]. *)
Record UFlowNode_PlayLevelSequence : Type := mkNode {
  Sequence : option FSoftObjectPath;
  LoadedSequence : option AssetId;
  SequencePlayer : option PlayerId
}.

(** Calls whose order is observable. *)
Inductive Call : Type :=
| Call_CreateLevelSequencePlayer (ctx : NodeId) (seq : AssetId)
    (settings : FMovieSceneSequencePlaybackSettings) (p : PlayerId)
| Call_TriggerOutput (n : NodeId) (PinName : FName) (bFinish : option bool)
| Call_TriggerFirstOutput (n : NodeId) (bFinish : bool)
| Call_AddDynamic (p : PlayerId) (n : NodeId) (fn : UFunctionName)
| Call_RemoveAll (p : PlayerId) (n : NodeId)
| Call_Play (p : PlayerId)
| Call_Stop (p : PlayerId)
| Call_RequestAsyncLoad (paths : list FSoftObjectPath) (bHasDelegate : bool)
| Call_Unload (path : FSoftObjectPath).

(** The part of the running game the node interacts with. *)
Record Runtime : Type := mkRuntime {
  (** [GetFlowSubsystem()->GetWorld()] *)
  FlowSubsystemWorld : option nat;
  (** which soft paths resolve to a loaded level sequence *)
  Resolve : FSoftObjectPath -> option AssetId;
  Assets : AssetId -> ULevelSequence;
  Players : PlayerId -> ULevelSequencePlayer;
  NextPlayer : PlayerId;
  Nodes : NodeId -> UFlowNode_PlayLevelSequence;
  Trace : list Call
}.

(** ** Field updates *)

Definition set_Assets (a : AssetId -> ULevelSequence) (r : Runtime) : Runtime :=
  mkRuntime (FlowSubsystemWorld r) (Resolve r) a (Players r) (NextPlayer r)
            (Nodes r) (Trace r).

Definition set_Players (p : PlayerId -> ULevelSequencePlayer) (r : Runtime) : Runtime :=
  mkRuntime (FlowSubsystemWorld r) (Resolve r) (Assets r) p (NextPlayer r)
            (Nodes r) (Trace r).

Definition set_NextPlayer (k : PlayerId) (r : Runtime) : Runtime :=
  mkRuntime (FlowSubsystemWorld r) (Resolve r) (Assets r) (Players r) k
            (Nodes r) (Trace r).

Definition set_Nodes (n : NodeId -> UFlowNode_PlayLevelSequence) (r : Runtime) : Runtime :=
  mkRuntime (FlowSubsystemWorld r) (Resolve r) (Assets r) (Players r)
            (NextPlayer r) n (Trace r).

Definition record (c : Call) (r : Runtime) : Runtime :=
  mkRuntime (FlowSubsystemWorld r) (Resolve r) (Assets r) (Players r)
            (NextPlayer r) (Nodes r) (Trace r ++ [c]).

Definition set_LoadedSequence (this : NodeId) (v : option AssetId) (r : Runtime) : Runtime :=
  let n := Nodes r this in
  set_Nodes (upd (Nodes r) this (mkNode (Sequence n) v (SequencePlayer n))) r.

Definition set_SequencePlayer (this : NodeId) (v : option PlayerId) (r : Runtime) : Runtime :=
  let n := Nodes r this in
  set_Nodes (upd (Nodes r) this (mkNode (Sequence n) (LoadedSequence n) v)) r.

Definition set_OnFinished (l : list (UObjectPtr * UFunctionName))
  (p : ULevelSequencePlayer) : ULevelSequencePlayer :=
  mkPlayer (WorldContextObject p) (PlayedSequence p) (Settings p) l (IsPlaying p).

Definition set_IsPlaying (b : bool) (p : ULevelSequencePlayer) : ULevelSequencePlayer :=
  mkPlayer (WorldContextObject p) (PlayedSequence p) (Settings p) (OnFinished p) b.

(** ** Engine and base-class operations the node calls *)

(** Modelled from the spec: [UFlowNode::LoadAsset<ULevelSequence>] is
    defined in the base class, outside these sources.  It resolves the
    lazily-resolvable reference into the loaded asset, and yields null
    when the reference is null or nothing loads.
    [TSoftObjectPtr::LoadSynchronous] of the engine resolves the same way. *)
Definition LoadAsset (r : Runtime) (ref : option FSoftObjectPath) : option AssetId :=
  match ref with
  | None => None
  | Some path => Resolve r path
  end.

(** [ULevelSequencePlayer::CreateLevelSequencePlayer]: a new player, not
    playing, nothing registered on it. *)
Definition CreateLevelSequencePlayer (ctx : NodeId) (seq : AssetId)
  (settings : FMovieSceneSequencePlaybackSettings) (r : Runtime) : PlayerId * Runtime :=
  let p := NextPlayer r in
  let fresh := mkPlayer ctx seq settings [] false in
  (p, record (Call_CreateLevelSequencePlayer ctx seq settings p)
        (set_NextPlayer (S p) (set_Players (upd (Players r) p fresh) r))).

(** Modelled from the spec: [UFlowNode::TriggerOutput(PinName, bFinish)]
    is defined in the base class, outside these sources.  Firing an
    output is one call on the graph runtime; what the graph does with it
    is not part of the node.  [bFinish] is [None] when the call leaves it
    to the default of the declaration. *)
Definition TriggerOutput (this : NodeId) (PinName : FName) (bFinish : option bool)
  (r : Runtime) : Runtime :=
  record (Call_TriggerOutput this PinName bFinish) r.

(** Modelled from the spec: [UFlowNode::TriggerFirstOutput(bFinish)] is
    defined in the base class, outside these sources.  It forwards to the
    first output of the node, one call on the graph runtime. *)
Definition TriggerFirstOutput (this : NodeId) (bFinish : bool) (r : Runtime) : Runtime :=
  record (Call_TriggerFirstOutput this bFinish) r.

Definition UObjectPtr_eqb (a b : UObjectPtr) : bool :=
  match a, b with
  | Obj_PlayLevelSequence n, Obj_PlayLevelSequence m => Nat.eqb n m
  | Obj_Other n, Obj_Other m => Nat.eqb n m
  | _, _ => false
  end.

(** [Player->OnFinished.AddDynamic(Object, &Class::Function)] *)
Definition OnFinished_AddDynamic (p : PlayerId) (this : NodeId) (fn : UFunctionName)
  (r : Runtime) : Runtime :=
  let pl := Players r p in
  record (Call_AddDynamic p this fn)
    (set_Players
       (upd (Players r) p
          (set_OnFinished (OnFinished pl ++ [(Obj_PlayLevelSequence this, fn)]) pl)) r).

(** [Player->OnFinished.RemoveAll(Object)] *)
Definition OnFinished_RemoveAll (p : PlayerId) (this : NodeId) (r : Runtime) : Runtime :=
  let pl := Players r p in
  record (Call_RemoveAll p this)
    (set_Players
       (upd (Players r) p
          (set_OnFinished
             (filter (fun b => negb (UObjectPtr_eqb (fst b) (Obj_PlayLevelSequence this)))
                     (OnFinished pl)) pl)) r).

Definition Play (p : PlayerId) (r : Runtime) : Runtime :=
  record (Call_Play p)
    (set_Players (upd (Players r) p (set_IsPlaying true (Players r p))) r).

Definition Stop (p : PlayerId) (r : Runtime) : Runtime :=
  record (Call_Stop p)
    (set_Players (upd (Players r) p (set_IsPlaying false (Players r p))) r).

(** ** UFlowNode_PlayLevelSequence *)

Definition IsFlowTrack (t : UMovieSceneTrack) : bool :=
  match GetClass t with
  | UMovieSceneFlowTrack_StaticClass => true
  | OtherTrack_StaticClass _ => false
  end.

(** The three nested loops of [GetContextOutputs], appending to [PinNames]. *)
Definition CollectEntryPoints (PinNames : list FName) (EntryPoints : list FString)
  : list FName :=
  fold_left (fun acc EventName =>
               if negb (IsEmpty EventName) then acc ++ [EventName] else acc)
            EntryPoints PinNames.

Definition CollectSections (PinNames : list FName) (Sections : list UMovieSceneSection)
  : list FName :=
  fold_left (fun acc Section =>
               match Section with
               | FlowSection EntryPoints _ => CollectEntryPoints acc EntryPoints
               | OtherSection _ => acc
               end)
            Sections PinNames.

Definition CollectTracks (PinNames : list FName) (Tracks : list UMovieSceneTrack)
  : list FName :=
  fold_left (fun acc Track =>
               if IsFlowTrack Track then CollectSections acc (GetAllSections Track)
               else acc)
            Tracks PinNames.

Definition GetContextOutputs (this : NodeId) (r : Runtime) : list FName :=
  match Sequence (Nodes r this) with
  | None => []
  | Some path =>
      let PinNames := [] in
      match Resolve r path with
      | Some seq =>
          match GetMovieScene (Assets r seq) with
          | Some MovieScene => CollectTracks PinNames (GetMasterTracks MovieScene)
          | None => PinNames
          end
      | None => PinNames
      end
  end.

Definition PreloadContent (this : NodeId) (r : Runtime) : Runtime :=
  match Sequence (Nodes r this) with
  | Some path => record (Call_RequestAsyncLoad [path] false) r
  | None => r
  end.

Definition FlushContent (this : NodeId) (r : Runtime) : Runtime :=
  match Sequence (Nodes r this) with
  | Some path => record (Call_Unload path) r
  | None => r
  end.

(** Rebinding or unbinding the delegate of every flow section of every
    flow track, as the loops of [CreatePlayer] and [Cleanup] do. *)
Definition SetSectionDelegate (d : option StaticFunction) (s : UMovieSceneSection)
  : UMovieSceneSection :=
  match s with
  | FlowSection EntryPoints _ => FlowSection EntryPoints d
  | OtherSection k => OtherSection k
  end.

Definition SetTrackDelegates (d : option StaticFunction) (t : UMovieSceneTrack)
  : UMovieSceneTrack :=
  if IsFlowTrack t
  then mkTrack (GetClass t) (map (SetSectionDelegate d) (GetAllSections t))
  else t.

Definition SetFlowDelegates (d : option StaticFunction) (ms : UMovieScene) : UMovieScene :=
  mkMovieScene (map (SetTrackDelegates d) (GetMasterTracks ms)).

(** [LoadedSequence->GetMovieScene()->GetMasterTracks()] is not guarded:
    a loaded sequence without movie scene faults. *)
Definition ForEachFlowSection (d : option StaticFunction) (seq : AssetId) (r : Runtime)
  : option Runtime :=
  match GetMovieScene (Assets r seq) with
  | None => None
  | Some ms =>
      Some (set_Assets (upd (Assets r) seq (mkLevelSequence (Some (SetFlowDelegates d ms)))) r)
  end.

Definition CreatePlayer (this : NodeId)
  (PlaybackSettings : FMovieSceneSequencePlaybackSettings) (r : Runtime) : option Runtime :=
  let Loaded := LoadAsset r (Sequence (Nodes r this)) in
  let r1 := set_LoadedSequence this Loaded r in
  match Loaded with
  | Some seq =>
      let (p, r2) := CreateLevelSequencePlayer this seq PlaybackSettings r1 in
      let r3 := set_SequencePlayer this (Some p) r2 in
      ForEachFlowSection (Some Fn_OnSequenceEventExecuted) seq r3
  | None => Some r1
  end.

Definition ExecuteInput (this : NodeId) (PinName : FName) (r : Runtime) : Runtime :=
  let World := FlowSubsystemWorld r in
  let Loaded := LoadAsset r (Sequence (Nodes r this)) in
  let r1 := set_LoadedSequence this Loaded r in
  let r' :=
    match World, Loaded with
    | Some _, Some seq =>
        let (p, r2) := CreateLevelSequencePlayer this seq DefaultPlaybackSettings r1 in
        let r3 := set_SequencePlayer this (Some p) r2 in
        let r4 := TriggerOutput this "PreStart" None r3 in
        let r5 := OnFinished_AddDynamic p this Fn_OnPlaybackFinished r4 in
        let r6 := Play p r5 in
        TriggerOutput this "Started" None r6
    | _, _ => r1
    end in
  TriggerFirstOutput this false r'.

Definition TriggerEvent (this : NodeId) (EventName : FString) (r : Runtime) : Runtime :=
  TriggerOutput this EventName (Some false) r.

(** [Cast<UFlowNode_PlayLevelSequence>(EventReceiver)] *)
Definition Cast_PlayLevelSequence (o : option UObjectPtr) : option NodeId :=
  match o with
  | Some (Obj_PlayLevelSequence n) => Some n
  | Some (Obj_Other _) => None
  | None => None
  end.

(** The static member function. *)
Definition OnSequenceEventExecuted (EventReceiver : option UObjectPtr)
  (EventName : FString) (r : Runtime) : Runtime :=
  match Cast_PlayLevelSequence EventReceiver with
  | Some Node => TriggerEvent Node EventName r
  | None => r
  end.

Definition OnPlaybackFinished (this : NodeId) (r : Runtime) : Runtime :=
  TriggerOutput this "Completed" None r.

Definition Cleanup (this : NodeId) (r : Runtime) : option Runtime :=
  let r1 :=
    match LoadedSequence (Nodes r this) with
    | Some seq =>
        match ForEachFlowSection None seq r with
        | Some r' => Some (set_LoadedSequence this None r')
        | None => None
        end
    | None => Some r
    end in
  match r1 with
  | None => None
  | Some r1 =>
      match SequencePlayer (Nodes r1 this) with
      | Some p =>
          Some (set_SequencePlayer this None (Stop p (OnFinished_RemoveAll p this r1)))
      | None => Some r1
      end
  end.

(** ** The engine side of a finished playback

    When a player reaches the end of its sequence the engine broadcasts its
    [OnFinished] delegate: every registered member function is called on
    its object.  Only [OnPlaybackFinished] of this node class is part of
    the modelled code; other registrations do nothing here. *)
Definition ProcessEvent (b : UObjectPtr * UFunctionName) (r : Runtime) : Runtime :=
  match b with
  | (Obj_PlayLevelSequence n, Fn_OnPlaybackFinished) => OnPlaybackFinished n r
  | _ => r
  end.

Definition Broadcast_OnFinished (p : PlayerId) (r : Runtime) : Runtime :=
  fold_left (fun acc b => ProcessEvent b acc) (OnFinished (Players r p)) r.

(** ** Vocabulary of the specification *)

(** The delegate of every flow section of every flow track of [ms] is [d]. *)
Definition AllFlowSectionsBoundTo (d : option StaticFunction) (ms : UMovieScene) : Prop :=
  forall t, In t (GetMasterTracks ms) -> IsFlowTrack t = true ->
  forall EntryPoints d', In (FlowSection EntryPoints d') (GetAllSections t) -> d' = d.

(** The event names authored in the flow sections of the flow tracks of
    [ms], in the order of tracks, sections and entry points. *)
Definition SectionEntryPoints (s : UMovieSceneSection) : list FString :=
  match s with
  | FlowSection EntryPoints _ => EntryPoints
  | OtherSection _ => []
  end.

Definition TrackEntryPoints (t : UMovieSceneTrack) : list FString :=
  if IsFlowTrack t then flat_map SectionEntryPoints (GetAllSections t) else [].

Definition AuthoredEventNames (ms : UMovieScene) : list FString :=
  flat_map TrackEntryPoints (GetMasterTracks ms).

Definition NonEmpty (s : FString) : bool := negb (IsEmpty s).

End PlayLevelSequence.

(** * The search panel *)

Module FindInFlow.
Import UnrealString.

(** ** Graph nodes

    What the search reads of a [UEdGraphNode]: its list-view title, the name
    of its class, its comment and, when [Cast<UFlowGraphNode>] succeeds, the
    flow part: the node description and, when the flow node is a
    [UFlowNode_SubGraph], the asset it edits with the graph nodes of the
    asset's flow nodes ([GetGraphNode] may be null). *)
Inductive UEdGraphNode : Type :=
| mkEdGraphNode (Title ClassName Comment : FString) (Flow : option UFlowGraphNode)
with UFlowGraphNode : Type :=
| mkFlowGraphNode (Description : FString) (SubGraph : option UFlowNode_SubGraph)
with UFlowNode_SubGraph : Type :=
| mkSubGraph (AssetToEdit : option UFlowAsset)
with UFlowAsset : Type :=
| mkFlowAsset (GraphNodes : list (option UEdGraphNode)).

Definition GetNodeTitle (n : UEdGraphNode) : FString :=
  match n with mkEdGraphNode t _ _ _ => t end.
Definition GetClassName (n : UEdGraphNode) : FString :=
  match n with mkEdGraphNode _ c _ _ => c end.
Definition NodeComment (n : UEdGraphNode) : FString :=
  match n with mkEdGraphNode _ _ c _ => c end.
Definition Cast_FlowGraphNode (n : UEdGraphNode) : option UFlowGraphNode :=
  match n with mkEdGraphNode _ _ _ f => f end.
Definition GetNodeDescription (f : UFlowGraphNode) : FString :=
  match f with mkFlowGraphNode d _ => d end.
Definition Cast_SubGraph (f : UFlowGraphNode) : option UFlowNode_SubGraph :=
  match f with mkFlowGraphNode _ s => s end.
Definition GetAssetToEdit (s : UFlowNode_SubGraph) : option UFlowAsset :=
  match s with mkSubGraph a => a end.
Definition GetNodes (a : UFlowAsset) : list (option UEdGraphNode) :=
  match a with mkFlowAsset l => l end.

Record UEdGraph : Type := mkGraph { Nodes : list UEdGraphNode }.
Record SGraphEditor : Type := mkGraphEditor { GetCurrentGraph : option UEdGraph }.
Record FFlowAssetEditor : Type := mkEditor { GetFlowGraph : option SGraphEditor }.

(** ** Search results *)

(** What the weak [Parent] pointer of a result refers to. *)
Inductive ParentRef : Type :=
| NoParent
| RootParent
| NodeParent (Node : UEdGraphNode).

Inductive FFindInFlowResult : Type :=
| mkResult (Value : FString) (GraphNode : option UEdGraphNode) (Parent : ParentRef)
    (Children : list FFindInFlowResult).

Definition Value (x : FFindInFlowResult) : FString :=
  match x with mkResult v _ _ _ => v end.
Definition GraphNode (x : FFindInFlowResult) : option UEdGraphNode :=
  match x with mkResult _ g _ _ => g end.
Definition Children (x : FFindInFlowResult) : list FFindInFlowResult :=
  match x with mkResult _ _ _ c => c end.

(** [FFindInFlowResult(const FString& InValue)] *)
Definition FFindInFlowResult_of (InValue : FString) : FFindInFlowResult :=
  mkResult InValue None NoParent [].

Inductive TreeViewCall : Type :=
| SetItemExpansion (Item : FFindInFlowResult) (bExpand : bool)
| RequestTreeRefresh.

(** The members of [SFindInFlow].  [FlowAssetEditorPtr] is a weak pointer,
    [None] once the editor is gone; [TreeView] is the list of the calls
    made on the tree view. *)
Record SFindInFlow : Type := mkFindInFlow {
  FlowAssetEditorPtr : option FFlowAssetEditor;
  SearchValue : FString;
  HighlightText : FString;
  bFindInSubGraph : bool;
  ItemsFound : list FFindInFlowResult;
  RootSearchResult : option FFindInFlowResult;
  TreeView : list TreeViewCall
}.

Definition set_HighlightText (v : FString) (w : SFindInFlow) : SFindInFlow :=
  mkFindInFlow (FlowAssetEditorPtr w) (SearchValue w) v (bFindInSubGraph w)
               (ItemsFound w) (RootSearchResult w) (TreeView w).

Definition set_ItemsFound (v : list FFindInFlowResult) (w : SFindInFlow) : SFindInFlow :=
  mkFindInFlow (FlowAssetEditorPtr w) (SearchValue w) (HighlightText w)
               (bFindInSubGraph w) v (RootSearchResult w) (TreeView w).

Definition set_RootSearchResult (v : option FFindInFlowResult) (w : SFindInFlow)
  : SFindInFlow :=
  mkFindInFlow (FlowAssetEditorPtr w) (SearchValue w) (HighlightText w)
               (bFindInSubGraph w) (ItemsFound w) v (TreeView w).

Definition TreeView_calls (cs : list TreeViewCall) (w : SFindInFlow) : SFindInFlow :=
  mkFindInFlow (FlowAssetEditorPtr w) (SearchValue w) (HighlightText w)
               (bFindInSubGraph w) (ItemsFound w) (RootSearchResult w)
               (TreeView w ++ cs).

(** ** SFindInFlow *)

(** The loop leaves at the first token that is not contained. *)
Fixpoint StringMatchesSearchTokens (Tokens : list FString) (ComparisonString : FString)
  : bool :=
  match Tokens with
  | [] => true
  | Token :: rest =>
      if negb (Contains ComparisonString Token) then false
      else StringMatchesSearchTokens rest ComparisonString
  end.

(** The search string of a node, as both [MatchTokens] and
    [MatchTokensInChild] build it. *)
Definition SearchString (Node : UEdGraphNode) : FString :=
  let NodeName := GetNodeTitle Node in
  let NodeSearchString := (NodeName ++ GetClassName Node ++ NodeComment Node)%string in
  let NodeSearchString :=
    match Cast_FlowGraphNode Node with
    | Some FlowNode => (NodeSearchString ++ GetNodeDescription FlowNode)%string
    | None => NodeSearchString
    end in
  Replace_Space_Empty NodeSearchString.

(** [MatchTokensInChild]; [ParentChildren] is [ParentNode->Children] and
    [ParentGraphNode] the graph node of [ParentNode]. *)
Definition MatchTokensInChild (Tokens : list FString) (Child : option UEdGraphNode)
  (ParentGraphNode : UEdGraphNode) (ParentChildren : list FFindInFlowResult)
  : list FFindInFlowResult :=
  match Child with
  | None => ParentChildren
  | Some Child =>
      let ChildName := GetNodeTitle Child in
      if StringMatchesSearchTokens Tokens (SearchString Child)
      then ParentChildren ++ [mkResult ChildName (Some Child) (NodeParent ParentGraphNode) []]
      else ParentChildren
  end.

(** The children [NodeResult] has once the sub-graph part of the loop body
    of [MatchTokens] has run. *)
Definition SubGraphChildren (Tokens : list FString) (bFindInSubGraph : bool)
  (Node : UEdGraphNode) : list FFindInFlowResult :=
  match Cast_FlowGraphNode Node with
  | Some FlowNode =>
      match bFindInSubGraph, Cast_SubGraph FlowNode with
      | true, Some SubGraphNode =>
          match GetAssetToEdit SubGraphNode with
          | Some FlowAsset =>
              fold_left (fun acc Child => MatchTokensInChild Tokens Child Node acc)
                        (GetNodes FlowAsset) []
          | None => []
          end
      | _, _ => []
      end
  | None => []
  end.

(** [bNodeMatchesSearch] of the loop body. *)
Definition bNodeMatchesSearch (Tokens : list FString) (Node : UEdGraphNode) : bool :=
  StringMatchesSearchTokens Tokens (SearchString Node).

(** One turn of the loop over [Graph->Nodes]. *)
Definition MatchTokens_body (Tokens : list FString) (bFindInSubGraph : bool)
  (Found : list FFindInFlowResult) (Node : UEdGraphNode) : list FFindInFlowResult :=
  let NodeName := GetNodeTitle Node in
  let NodeResult :=
    mkResult NodeName (Some Node) RootParent (SubGraphChildren Tokens bFindInSubGraph Node) in
  if orb (Nat.ltb 0 (List.length (Children NodeResult))) (bNodeMatchesSearch Tokens Node)
  then Found ++ [NodeResult]
  else Found.

(** The graph the editor shows, as the head of [MatchTokens] finds it. *)
Definition FocusedGraph (editor : FFlowAssetEditor) : option UEdGraph :=
  match GetFlowGraph editor with
  | Some FocusedGraphEditor => GetCurrentGraph FocusedGraphEditor
  | None => None
  end.

(** [FlowAssetEditorPtr.Pin()->GetFlowGraph()] faults once the editor is gone. *)
Definition MatchTokens (Tokens : list FString) (w : SFindInFlow) : option SFindInFlow :=
  let w := set_RootSearchResult None w in
  match FlowAssetEditorPtr w with
  | None => None
  | Some editor =>
      match FocusedGraph editor with
      | None => Some w
      | Some Graph =>
          let w := set_RootSearchResult (Some (FFindInFlowResult_of "FlowEditorRoot")) w in
          Some (set_ItemsFound
                  (fold_left (MatchTokens_body Tokens (bFindInSubGraph w))
                             (Nodes Graph) (ItemsFound w)) w)
      end
  end.

Definition NoResults : FFindInFlowResult := FFindInFlowResult_of "No Results found".

Definition InitiateSearch (w : SFindInFlow) : option SFindInFlow :=
  let Tokens := ParseIntoArray (SearchValue w) in
  let w := TreeView_calls (map (fun It => SetItemExpansion It false) (ItemsFound w)) w in
  let w := set_ItemsFound [] w in
  let matched :=
    if Nat.ltb 0 (List.length Tokens)
    then MatchTokens Tokens (set_HighlightText (SearchValue w) w)
    else Some w in
  match matched with
  | None => None
  | Some w =>
      let w :=
        if Nat.eqb (List.length (ItemsFound w)) 0
        then set_ItemsFound (ItemsFound w ++ [NoResults]) w
        else w in
      let w := TreeView_calls [RequestTreeRefresh] w in
      Some (TreeView_calls (map (fun It => SetItemExpansion It true) (ItemsFound w)) w)
  end.

(** ** Vocabulary of the specification *)

(** [sub] occurs in [s], letter for letter. *)
Definition IsSubstring (sub s : FString) : Prop :=
  exists pre post, s = (pre ++ sub ++ post)%string.

(** [sub] occurs in [s] once the letters [A] to [Z] of both are lowered. *)
Definition IsSubstringIgnoringCase (sub s : FString) : Prop :=
  exists pre post, ToLowerString s = (pre ++ ToLowerString sub ++ post)%string.

(** Title, class name, comment and, for a flow node, description. *)
Definition NodeText (Node : UEdGraphNode) : FString :=
  (GetNodeTitle Node ++ GetClassName Node ++ NodeComment Node ++
   match Cast_FlowGraphNode Node with
   | Some FlowNode => GetNodeDescription FlowNode
   | None => EmptyString
   end)%string.

(** The results [MatchTokens] finds for the query of [w]: none when the
    query has no token or the graph is not available. *)
Definition SearchHits (w : SFindInFlow) : list FFindInFlowResult :=
  match ParseIntoArray (SearchValue w), FlowAssetEditorPtr w with
  | [], _ => []
  | _ :: _, None => []
  | Tokens, Some editor =>
      match FocusedGraph editor with
      | None => []
      | Some Graph =>
          flat_map (MatchTokens_body Tokens (bFindInSubGraph w) []) (Nodes Graph)
      end
  end.

End FindInFlow.

(** * Concrete runtimes and search panels used below *)

Module Examples.
Import UnrealString PlayLevelSequence.

Definition NullPlayer : ULevelSequencePlayer :=
  mkPlayer 0 0 DefaultPlaybackSettings [] false.

(** A sequence with one flow track of two flow sections, both authored
    with the event [Hit], next to a track of another class. *)
Definition HitScene : UMovieScene :=
  mkMovieScene
    [ mkTrack UMovieSceneFlowTrack_StaticClass
        [ FlowSection ["Hit"; ""] None; OtherSection 7; FlowSection ["Hit"] None ];
      mkTrack (OtherTrack_StaticClass 1) [ FlowSection ["Camera"] None ] ].

(** Every node refers to [/Game/Seq], which resolves to asset 0 with the
    movie scene [ms]; nothing is loaded or playing yet. *)
Definition runtime_with (world : option nat) (ms : option UMovieScene) : Runtime :=
  mkRuntime world
            (fun path => if String.eqb path "/Game/Seq" then Some 0 else None)
            (fun _ => mkLevelSequence ms)
            (fun _ => NullPlayer)
            0
            (fun _ => mkNode (Some "/Game/Seq") None None)
            [].

Definition rt_hit : Runtime := runtime_with (Some 0) (Some HitScene).

(** The same without a world. *)
Definition rt_no_world : Runtime := runtime_with None (Some HitScene).

(** No world, and the level sequence has no movie scene. *)
Definition rt_no_movie_scene : Runtime := runtime_with None None.

(** A graph of two nodes shown by a live editor, and a panel on it. *)
Definition PlayNode : FindInFlow.UEdGraphNode :=
  FindInFlow.mkEdGraphNode "Play" "FlowGraphNode" ""
    (Some (FindInFlow.mkFlowGraphNode "Intro Seq" None)).

Definition StartNode : FindInFlow.UEdGraphNode :=
  FindInFlow.mkEdGraphNode "Start" "FlowGraphNode" "entry" None.

Definition panel (query : string) : FindInFlow.SFindInFlow :=
  FindInFlow.mkFindInFlow
    (Some (FindInFlow.mkEditor
             (Some (FindInFlow.mkGraphEditor
                      (Some (FindInFlow.mkGraph [PlayNode; StartNode]))))))
    query "" false [] None [].

End Examples.

(** * The remaining members of the node *)

Module PlayLevelSequenceMembers.
Import UnrealString PlayLevelSequence.

(** The constructor: both pointers null, the soft reference not yet set,
    and three output names added to the ones the base class declared. *)
Definition Construct (Super_OutputNames : list FName)
  : UFlowNode_PlayLevelSequence * list FName :=
  let OutputNames := Super_OutputNames in
  let OutputNames := OutputNames ++ ["PreStart"%string] in
  let OutputNames := OutputNames ++ ["Started"%string] in
  let OutputNames := OutputNames ++ ["Completed"%string] in
  (mkNode None None None, OutputNames).

(** The pin names of the [TriggerOutput] calls among [cs]. *)
Fixpoint TriggeredOutputs (cs : list Call) : list FName :=
  match cs with
  | [] => []
  | Call_TriggerOutput _ PinName _ :: cs' => PinName :: TriggeredOutputs cs'
  | _ :: cs' => TriggeredOutputs cs'
  end.

(** The calls [r'] has made since [r]. *)
Definition CallsSince (r r' : Runtime) : list Call :=
  skipn (List.length (Trace r)) (Trace r').

(** [r'] has the references of [r], resolving as in [r], and every asset
    has the authored event names it has in [r]. *)
Definition SameCatalog (r r' : Runtime) : Prop :=
  Resolve r' = Resolve r /\
  (forall n, Sequence (Nodes r' n) = Sequence (Nodes r n)) /\
  (forall a, option_map AuthoredEventNames (GetMovieScene (Assets r' a)) =
             option_map AuthoredEventNames (GetMovieScene (Assets r a))).

Section PlayRate.

(** The play rate is a [float]; nothing is computed with it. *)
Variable Rate : Type.

(** [OnTimeDilationUpdate]: the play rates of the players after
    [SequencePlayer->SetPlayRate(NewTimeDilation)], if there is a player. *)
Definition OnTimeDilationUpdate (this : NodeId) (NewTimeDilation : Rate)
  (r : Runtime) (PlayRates : PlayerId -> Rate) : PlayerId -> Rate :=
  match SequencePlayer (Nodes r this) with
  | Some p => upd PlayRates p NewTimeDilation
  | None => PlayRates
  end.

End PlayRate.

Section Progress.

(** Times in seconds are [double]s; the node only prints them. *)
Variable Seconds : Type.
(** [UFlowNode::GetProgressAsString] of the base class. *)
Variable GetProgressAsString : Seconds -> FString.
(** [GetCurrentTime().AsSeconds()] and [GetDuration().AsSeconds()] of a player. *)
Variable GetCurrentTime : PlayerId -> Seconds.
Variable GetDuration : PlayerId -> Seconds.

Definition GetPlaybackProgress (this : NodeId) (r : Runtime) : FString :=
  match SequencePlayer (Nodes r this) with
  | Some p =>
      if IsPlaying (Players r p)
      then (GetProgressAsString (GetCurrentTime p) ++ " / "
            ++ GetProgressAsString (GetDuration p))%string
      else EmptyString
  | None => EmptyString
  end.

Definition GetStatusString (this : NodeId) (r : Runtime) : FString :=
  GetPlaybackProgress this r.

End Progress.

End PlayLevelSequenceMembers.

(** * The remaining members of the search panel *)

Module FindInFlowMembers.
Import UnrealString FindInFlow.

(** [S.Find(Sub)] with its default arguments ([ESearchCase::IgnoreCase],
    from the start): the first position where [Sub] occurs, [None] for
    [INDEX_NONE]. *)
Fixpoint Find (s sub : FString) : option nat :=
  if StartsWithIgnoreCase s sub then Some 0
  else match s with
       | EmptyString => None
       | String _ s' => option_map S (Find s' sub)
       end.

(** [S.RightChop(Count)]: [S] without its first [Count] characters. *)
Fixpoint RightChop (Count : nat) (s : FString) : FString :=
  match Count, s with
  | 0, _ => s
  | S n, String _ s' => RightChop n s'
  | S _, EmptyString => EmptyString
  end.



(** The tail of [GetNodeTypeText]: the class name from behind its first
    underscore, or as it is when it has none. *)
Definition ChopClassPrefix (NodeClassName : FString) : FString :=
  match Find NodeClassName "_" with
  | None => NodeClassName
  | Some Pos => RightChop (Pos + 1) NodeClassName
  end.

Section NodeType.

(** [FlowNode->GetFlowNode()->GetClass()->GetName()]: the class of the
    flow node behind a flow graph node. *)
Variable FlowNodeClassName : UFlowGraphNode -> FString.

Definition GetNodeTypeText (x : FFindInFlowResult) : FString :=
  match GraphNode x with
  | Some Node =>
      let NodeClassName :=
        match Cast_FlowGraphNode Node with
        | Some FlowNode => FlowNodeClassName FlowNode
        | None => GetClassName Node
        end in
      ChopClassPrefix NodeClassName
  | None => EmptyString
  end.

End NodeType.



Definition Parent_of (x : FFindInFlowResult) : ParentRef :=
  match x with mkResult _ _ p _ => p end.



Definition set_SearchValue (v : FString) (w : SFindInFlow) : SFindInFlow :=
  mkFindInFlow (FlowAssetEditorPtr w) v (HighlightText w) (bFindInSubGraph w)
               (ItemsFound w) (RootSearchResult w) (TreeView w).

Definition set_bFindInSubGraph (v : bool) (w : SFindInFlow) : SFindInFlow :=
  mkFindInFlow (FlowAssetEditorPtr w) (SearchValue w) (HighlightText w) v
               (ItemsFound w) (RootSearchResult w) (TreeView w).

Definition OnSearchTextChanged (Text : FString) (w : SFindInFlow) : option SFindInFlow :=
  InitiateSearch (set_SearchValue Text w).

Inductive ETextCommit : Type :=
| Default_Commit
| OnEnter
| OnUserMovedFocus
| OnCleared.

Definition OnSearchTextCommitted (Text : FString) (CommitType : ETextCommit)
  (w : SFindInFlow) : option SFindInFlow :=
  OnSearchTextChanged Text w.

Inductive ECheckBoxState : Type :=
| Unchecked
| Checked
| Undetermined.

Definition OnFindInSubGraphStateChanged (CheckBoxState : ECheckBoxState)
  (w : SFindInFlow) : option SFindInFlow :=
  let bChecked :=
    match CheckBoxState with
    | Checked => true
    | Unchecked => false
    | Undetermined => false
    end in
  InitiateSearch (set_bFindInSubGraph bChecked w).

Definition OnGetChildren (InItem : FFindInFlowResult) (OutChildren : list FFindInFlowResult)
  : list FFindInFlowResult :=
  OutChildren ++ Children InItem.


(** ** Vocabulary of the properties *)

(** The result of a child of a sub-graph node, when the child matches. *)
Definition ChildHit (Tokens : list FString) (ParentGraphNode : UEdGraphNode)
  (Child : option UEdGraphNode) : list FFindInFlowResult :=
  match Child with
  | Some Child =>
      if bNodeMatchesSearch Tokens Child
      then [mkResult (GetNodeTitle Child) (Some Child) (NodeParent ParentGraphNode) []]
      else []
  | None => []
  end.

(** The nodes a sub-graph node opens onto, when it does. *)
Definition SubGraphNodes (Node : UEdGraphNode) : list (option UEdGraphNode) :=
  match Cast_FlowGraphNode Node with
  | Some FlowNode =>
      match Cast_SubGraph FlowNode with
      | Some SubGraphNode =>
          match GetAssetToEdit SubGraphNode with
          | Some FlowAsset => GetNodes FlowAsset
          | None => []
          end
      | None => []
      end
  | None => []
  end.

(** [Node] gets a result: it matches directly, or the sub-graph search is
    on and one of the nodes of its sub-graph matches. *)
Definition IsListed (Tokens : list FString) (bFindInSubGraph : bool)
  (Node : UEdGraphNode) : bool :=
  orb (bNodeMatchesSearch Tokens Node)
      (andb bFindInSubGraph
            (existsb (fun Child =>
                        match Child with
                        | Some Child => bNodeMatchesSearch Tokens Child
                        | None => false
                        end)
                     (SubGraphNodes Node))).

Fixpoint OnlySpaces (s : FString) : bool :=
  match s with
  | EmptyString => true
  | String c s' => andb (Ascii.eqb c " ") (OnlySpaces s')
  end.

Fixpoint HasChar (c : ascii) (s : FString) : bool :=
  match s with
  | EmptyString => false
  | String d s' => orb (Ascii.eqb d c) (HasChar c s')
  end.

End FindInFlowMembers.

(** * More concrete runtimes and panels *)

Module MoreExamples.
Import UnrealString PlayLevelSequence FindInFlow.

(** A sub-graph node whose asset holds [PlayNode], a null graph node and
    [StartNode]. *)
Definition SubGraphNode : UEdGraphNode :=
  mkEdGraphNode "Sub Graph" "FlowGraphNode" ""
    (Some (mkFlowGraphNode "Intro"
             (Some (mkSubGraph
                      (Some (mkFlowAsset [Some Examples.PlayNode; None;
                                          Some Examples.StartNode])))))).

Definition sub_panel (query : string) (bSub : bool) : SFindInFlow :=
  mkFindInFlow
    (Some (mkEditor (Some (mkGraphEditor
                             (Some (mkGraph [SubGraphNode; Examples.StartNode]))))))
    query "" bSub [] None [].

(** Node 1 has loaded asset 0 and owns no player; every node refers to
    [/Game/Seq]. *)
Definition rt_shared : Runtime :=
  mkRuntime (Some 0)
            (fun path => if String.eqb path "/Game/Seq" then Some 0 else None)
            (fun _ => mkLevelSequence (Some Examples.HitScene))
            (fun _ => Examples.NullPlayer)
            0
            (fun n => mkNode (Some "/Game/Seq") (if Nat.eqb n 1 then Some 0 else None) None)
            [].

End MoreExamples.

(** * Properties of UFlowNode_PlayLevelSequence *)

Module PlayLevelSequenceFacts.
Import UnrealString PlayLevelSequence.

Lemma upd_same {A : Type} (f : nat -> A) k v : upd f k v k = v.
Proof. unfold upd. now rewrite Nat.eqb_refl. Qed.

Lemma upd_other {A : Type} (f : nat -> A) k v i : i <> k -> upd f k v i = f i.
Proof.
  intros Hne. unfold upd.
  destruct (Nat.eqb_spec i k) as [Heq | _]; [contradiction | reflexivity].
Qed.

Ltac upd_simpl := cbn; repeat (rewrite upd_same; cbn).

(** ** Activation *)

Lemma ExecuteInput_failed this PinName r :
  FlowSubsystemWorld r = None \/ LoadAsset r (Sequence (Nodes r this)) = None ->
  ExecuteInput this PinName r =
  TriggerFirstOutput this false
    (set_LoadedSequence this (LoadAsset r (Sequence (Nodes r this))) r).
Proof.
  intros [Hw | Hl]; unfold ExecuteInput.
  - rewrite Hw. reflexivity.
  - rewrite Hl. destruct (FlowSubsystemWorld r); reflexivity.
Qed.

(** C2.  When the world is missing or the asset does not load,
    [ExecuteInput] makes exactly one call, [TriggerFirstOutput(false)]: no
    "PreStart", no "Started", no player created ([SequencePlayer] and the
    player store are as before), and the first output is triggered. *)
Theorem ExecuteInput_without_world_or_asset this PinName r :
  FlowSubsystemWorld r = None \/ LoadAsset r (Sequence (Nodes r this)) = None ->
  let r' := ExecuteInput this PinName r in
  Trace r' = Trace r ++ [Call_TriggerFirstOutput this false] /\
  ~ In (Call_TriggerOutput this "PreStart" None) (skipn (List.length (Trace r)) (Trace r')) /\
  ~ In (Call_TriggerOutput this "Started" None) (skipn (List.length (Trace r)) (Trace r')) /\
  SequencePlayer (Nodes r' this) = SequencePlayer (Nodes r this) /\
  Players r' = Players r /\
  NextPlayer r' = NextPlayer r.
Proof.
  intros H r'. subst r'. rewrite (ExecuteInput_failed _ _ _ H).
  cbn [TriggerFirstOutput record set_LoadedSequence set_Nodes Trace Nodes Players NextPlayer].
  rewrite upd_same. cbn [SequencePlayer].
  assert (Hskip : skipn (List.length (Trace r)) (Trace r ++ [Call_TriggerFirstOutput this false])
                  = [Call_TriggerFirstOutput this false]).
  { rewrite skipn_app, skipn_all, Nat.sub_diag. reflexivity. }
  rewrite Hskip.
  repeat split; try reflexivity.
  - intros [Hc | []]. discriminate Hc.
  - intros [Hc | []]. discriminate Hc.
Qed.

Lemma ExecuteInput_without_world_or_asset_witness :
  let r' := ExecuteInput 0 "In" Examples.rt_no_world in
  Trace r' = Trace Examples.rt_no_world ++ [Call_TriggerFirstOutput 0 false] /\
  SequencePlayer (Nodes r' 0) = None.
Proof.
  pose proof (ExecuteInput_without_world_or_asset 0 "In" Examples.rt_no_world
                (or_introl eq_refl)) as H.
  cbv zeta in H. cbv zeta.
  destruct H as (Ht & _ & _ & Hp & _).
  split; [exact Ht | exact Hp].
Defined.

Lemma ExecuteInput_succeeded this PinName r w seq :
  FlowSubsystemWorld r = Some w ->
  LoadAsset r (Sequence (Nodes r this)) = Some seq ->
  let p := NextPlayer r in
  let r' := ExecuteInput this PinName r in
  Trace r' = Trace r ++
    [ Call_CreateLevelSequencePlayer this seq DefaultPlaybackSettings p;
      Call_TriggerOutput this "PreStart" None;
      Call_AddDynamic p this Fn_OnPlaybackFinished;
      Call_Play p;
      Call_TriggerOutput this "Started" None;
      Call_TriggerFirstOutput this false ] /\
  LoadedSequence (Nodes r' this) = Some seq /\
  SequencePlayer (Nodes r' this) = Some p /\
  OnFinished (Players r' p) = [(Obj_PlayLevelSequence this, Fn_OnPlaybackFinished)] /\
  IsPlaying (Players r' p) = true /\
  Assets r' = Assets r.
Proof.
  intros Hw Hl p r'. subst p r'. unfold ExecuteInput. rewrite Hw, Hl.
  cbn. repeat (rewrite upd_same; cbn).
  rewrite <- !app_assoc. cbn.
  repeat split; reflexivity.
Qed.

(** C5.  With a world and a loaded asset the calls of [ExecuteInput] are,
    in this order: create the player, "PreStart", register
    [OnPlaybackFinished] on the player's [OnFinished], play, "Started"
    (and then the first output). *)
Theorem ExecuteInput_success_order this PinName r w seq :
  FlowSubsystemWorld r = Some w ->
  LoadAsset r (Sequence (Nodes r this)) = Some seq ->
  let p := NextPlayer r in
  let r' := ExecuteInput this PinName r in
  Trace r' = Trace r ++
    [ Call_CreateLevelSequencePlayer this seq DefaultPlaybackSettings p;
      Call_TriggerOutput this "PreStart" None;
      Call_AddDynamic p this Fn_OnPlaybackFinished;
      Call_Play p;
      Call_TriggerOutput this "Started" None;
      Call_TriggerFirstOutput this false ] /\
  LoadedSequence (Nodes r' this) = Some seq /\
  SequencePlayer (Nodes r' this) = Some p /\
  OnFinished (Players r' p) = [(Obj_PlayLevelSequence this, Fn_OnPlaybackFinished)] /\
  IsPlaying (Players r' p) = true.
Proof.
  intros Hw Hl p r'.
  destruct (ExecuteInput_succeeded this PinName r w seq Hw Hl) as (Ht & Hs & Hp & Hf & Hi & _).
  repeat split; assumption.
Qed.

Lemma ExecuteInput_success_order_witness :
  Trace (ExecuteInput 0 "In" Examples.rt_hit) =
    [ Call_CreateLevelSequencePlayer 0 0 DefaultPlaybackSettings 0;
      Call_TriggerOutput 0 "PreStart" None;
      Call_AddDynamic 0 0 Fn_OnPlaybackFinished;
      Call_Play 0;
      Call_TriggerOutput 0 "Started" None;
      Call_TriggerFirstOutput 0 false ].
Proof.
  exact (proj1 (ExecuteInput_success_order 0 "In" Examples.rt_hit 0 0 eq_refl eq_refl)).
Defined.

(** ** Event routing *)

(** C4.  The static callback: on a receiver that is a node of this class,
    that node and only that node triggers the output named by the event
    (without finishing); on a null receiver or an object of another class
    nothing changes. *)
Theorem OnSequenceEventExecuted_routes EventName r :
  (forall n,
      OnSequenceEventExecuted (Some (Obj_PlayLevelSequence n)) EventName r =
        TriggerOutput n EventName (Some false) r /\
      Trace (OnSequenceEventExecuted (Some (Obj_PlayLevelSequence n)) EventName r) =
        Trace r ++ [Call_TriggerOutput n EventName (Some false)]) /\
  (forall k, OnSequenceEventExecuted (Some (Obj_Other k)) EventName r = r) /\
  OnSequenceEventExecuted None EventName r = r.
Proof.
  repeat split; reflexivity.
Qed.

(** ** Preload and flush *)

(** C9.  With a null reference [PreloadContent] and [FlushContent] do
    nothing.  Otherwise [PreloadContent] makes one call,
    [RequestAsyncLoad] of the path of the reference with an unbound
    delegate, and [FlushContent] one call, [Unload] of the same path.
    Neither changes a node, a player or an asset. *)
Theorem PreloadContent_FlushContent_spec this r :
  match Sequence (Nodes r this) with
  | None => PreloadContent this r = r /\ FlushContent this r = r
  | Some path =>
      Trace (PreloadContent this r) = Trace r ++ [Call_RequestAsyncLoad [path] false] /\
      Trace (FlushContent this r) = Trace r ++ [Call_Unload path]
  end /\
  Nodes (PreloadContent this r) = Nodes r /\
  Players (PreloadContent this r) = Players r /\
  Assets (PreloadContent this r) = Assets r /\
  Nodes (FlushContent this r) = Nodes r /\
  Players (FlushContent this r) = Players r /\
  Assets (FlushContent this r) = Assets r.
Proof.
  unfold PreloadContent, FlushContent.
  destruct (Sequence (Nodes r this)) as [path | ]; cbn; repeat split; reflexivity.
Qed.

(** ** Binding the flow sections *)

Lemma SetFlowDelegates_all d ms : AllFlowSectionsBoundTo d (SetFlowDelegates d ms).
Proof.
  intros t Ht Hflow EntryPoints d' Hs.
  cbn in Ht. apply in_map_iff in Ht. destruct Ht as (t0 & <- & _).
  unfold SetTrackDelegates in *.
  destruct (IsFlowTrack t0) eqn:Hf.
  - cbn in Hs. apply in_map_iff in Hs. destruct Hs as (s0 & Hs0 & _).
    destruct s0; cbn in Hs0; [now inversion Hs0 | discriminate].
  - rewrite Hf in Hflow. discriminate.
Qed.

(** [CreatePlayer] does bind every flow section of the loaded sequence. *)
Lemma CreatePlayer_binds this settings r seq ms :
  LoadAsset r (Sequence (Nodes r this)) = Some seq ->
  GetMovieScene (Assets r seq) = Some ms ->
  exists r' ms',
    CreatePlayer this settings r = Some r' /\
    SequencePlayer (Nodes r' this) = Some (NextPlayer r) /\
    GetMovieScene (Assets r' seq) = Some ms' /\
    AllFlowSectionsBoundTo (Some Fn_OnSequenceEventExecuted) ms'.
Proof.
  intros Hl Hms. unfold CreatePlayer. rewrite Hl. cbn.
  unfold ForEachFlowSection. cbn. rewrite Hms.
  eexists. eexists. split; [reflexivity | ].
  cbn. rewrite !upd_same. cbn.
  repeat split. apply SetFlowDelegates_all.
Qed.

Lemma ExecuteInput_keeps_assets this PinName r :
  Assets (ExecuteInput this PinName r) = Assets r.
Proof.
  unfold ExecuteInput.
  destruct (FlowSubsystemWorld r), (LoadAsset r (Sequence (Nodes r this))); reflexivity.
Qed.

(** C1, on the activation path.  [ExecuteInput] on a node whose sequence
    loads, in a world: a player is created and stored, and the flow
    sections of the sequence are as unbound as before.  The binding loop
    is in [CreatePlayer], which [ExecuteInput] does not call. *)
Theorem ExecuteInput_creates_player_without_binding :
  let r' := ExecuteInput 0 "In" Examples.rt_hit in
  SequencePlayer (Nodes r' 0) = Some 0 /\
  GetMovieScene (Assets r' 0) = Some Examples.HitScene /\
  In (mkTrack UMovieSceneFlowTrack_StaticClass
        [ FlowSection ["Hit"; ""] None; OtherSection 7; FlowSection ["Hit"] None ])
     (GetMasterTracks Examples.HitScene) /\
  ~ AllFlowSectionsBoundTo (Some Fn_OnSequenceEventExecuted) Examples.HitScene.
Proof.
  cbv zeta. split; [reflexivity | ]. split; [reflexivity | ].
  split; [left; reflexivity | ].
  intros Hall.
  specialize (Hall _ (or_introl eq_refl) eq_refl ["Hit"] None).
  cbn in Hall. discriminate Hall. right. right. left. reflexivity.
Qed.

(** ** Cleanup *)

(** Once both members are null, [Cleanup] changes nothing. *)
Lemma Cleanup_of_released this r :
  LoadedSequence (Nodes r this) = None ->
  SequencePlayer (Nodes r this) = None ->
  Cleanup this r = Some r.
Proof.
  intros Hl Hp. unfold Cleanup. rewrite Hl, Hp. reflexivity.
Qed.

(** [Cleanup] from a state whose loaded sequence, if any, has a movie
    scene: it returns, every flow section of the loaded sequence is
    unbound, the registrations of the node are removed from its player,
    which is stopped, both members are null, and a second [Cleanup]
    changes nothing. *)
Lemma Cleanup_releases this r :
  (forall seq, LoadedSequence (Nodes r this) = Some seq ->
               GetMovieScene (Assets r seq) <> None) ->
  exists r',
    Cleanup this r = Some r' /\
    LoadedSequence (Nodes r' this) = None /\
    SequencePlayer (Nodes r' this) = None /\
    (forall seq, LoadedSequence (Nodes r this) = Some seq ->
       exists ms, GetMovieScene (Assets r' seq) = Some ms /\ AllFlowSectionsBoundTo None ms) /\
    (forall p, SequencePlayer (Nodes r this) = Some p ->
       OnFinished (Players r' p) =
         filter (fun b => negb (UObjectPtr_eqb (fst b) (Obj_PlayLevelSequence this)))
                (OnFinished (Players r p)) /\
       IsPlaying (Players r' p) = false) /\
    Cleanup this r' = Some r'.
Proof.
  intros Hms. unfold Cleanup at 1.
  destruct (LoadedSequence (Nodes r this)) as [seq | ] eqn:Hl.
  - unfold ForEachFlowSection.
    destruct (GetMovieScene (Assets r seq)) as [ms | ] eqn:Hg;
      [ | exfalso; exact (Hms seq eq_refl Hg) ].
    upd_simpl.
    destruct (SequencePlayer (Nodes r this)) as [p | ] eqn:Hp.
    + eexists. split; [reflexivity | ]. upd_simpl.
      split; [reflexivity | ]. split; [reflexivity | ].
      split.
      { intros seq' Heq. injection Heq as <-. exists (SetFlowDelegates None ms).
        upd_simpl. split; [reflexivity | apply SetFlowDelegates_all]. }
      split.
      { intros p' Heq. injection Heq as <-. upd_simpl. split; reflexivity. }
      apply Cleanup_of_released; upd_simpl; reflexivity.
    + eexists. split; [reflexivity | ]. upd_simpl.
      split; [reflexivity | ]. split; [exact Hp | ].
      split.
      { intros seq' Heq. injection Heq as <-. exists (SetFlowDelegates None ms).
        upd_simpl. split; [reflexivity | apply SetFlowDelegates_all]. }
      split.
      { intros p' Heq. discriminate Heq. }
      apply Cleanup_of_released; upd_simpl; [reflexivity | exact Hp].
  - destruct (SequencePlayer (Nodes r this)) as [p | ] eqn:Hp.
    + eexists. split; [reflexivity | ]. upd_simpl.
      split; [exact Hl | ]. split; [reflexivity | ].
      split.
      { intros seq' Heq. discriminate Heq. }
      split.
      { intros p' Heq. injection Heq as <-. upd_simpl. split; reflexivity. }
      apply Cleanup_of_released; upd_simpl; [exact Hl | reflexivity].
    + exists r. split; [reflexivity | ].
      split; [exact Hl | ]. split; [exact Hp | ].
      split.
      { intros seq' Heq. discriminate Heq. }
      split.
      { intros p' Heq. discriminate Heq. }
      apply Cleanup_of_released; assumption.
Qed.

(** C3, where it fails.  An activation without a world creates no player
    but stores the loaded sequence; when that sequence has no movie
    scene, the [Cleanup] that follows dereferences the null movie scene.
    [GetContextOutputs] guards the same walk with
    [Sequence->GetMovieScene()] and returns. *)
Theorem Cleanup_faults_without_movie_scene :
  let r := ExecuteInput 0 "In" Examples.rt_no_movie_scene in
  LoadedSequence (Nodes r 0) = Some 0 /\
  SequencePlayer (Nodes r 0) = None /\
  GetMovieScene (Assets r 0) = None /\
  Cleanup 0 r = None /\
  GetContextOutputs 0 r = [].
Proof.
  cbv zeta. repeat split; reflexivity.
Qed.

(** ** Context outputs *)

Lemma CollectEntryPoints_filter acc eps :
  CollectEntryPoints acc eps = acc ++ filter NonEmpty eps.
Proof.
  unfold CollectEntryPoints. revert acc.
  induction eps as [ | e eps IH]; intros acc; cbn.
  - now rewrite app_nil_r.
  - rewrite IH. unfold NonEmpty at 2. destruct (negb (IsEmpty e)).
    + now rewrite <- app_assoc.
    + reflexivity.
Qed.

Lemma CollectSections_filter acc secs :
  CollectSections acc secs = acc ++ filter NonEmpty (flat_map SectionEntryPoints secs).
Proof.
  unfold CollectSections. revert acc.
  induction secs as [ | s secs IH]; intros acc; cbn.
  - now rewrite app_nil_r.
  - rewrite IH, filter_app. destruct s as [eps d | k]; cbn.
    + now rewrite CollectEntryPoints_filter, <- app_assoc.
    + reflexivity.
Qed.

Lemma CollectTracks_filter acc ts :
  CollectTracks acc ts = acc ++ filter NonEmpty (flat_map TrackEntryPoints ts).
Proof.
  unfold CollectTracks. revert acc.
  induction ts as [ | t ts IH]; intros acc; cbn.
  - now rewrite app_nil_r.
  - rewrite IH, filter_app. unfold TrackEntryPoints at 2.
    destruct (IsFlowTrack t); cbn.
    + now rewrite CollectSections_filter, <- app_assoc.
    + reflexivity.
Qed.

Lemma count_occ_filter_NonEmpty (l : list FString) (name : FString) :
  name <> "" ->
  count_occ string_dec (filter NonEmpty l) name = count_occ string_dec l name.
Proof.
  intros Hne. induction l as [ | x l IH]; [reflexivity | ].
  destruct x as [ | c x']; cbn [filter NonEmpty IsEmpty negb].
  - rewrite (count_occ_cons_neq string_dec l); [exact IH | ].
    intros Heq. apply Hne. now symmetry.
  - destruct (string_dec (String c x') name) as [Heq | Hneq].
    + rewrite !(count_occ_cons_eq string_dec _ Heq). now rewrite IH.
    + rewrite !(count_occ_cons_neq string_dec _ Hneq). exact IH.
Qed.

(** C6, as the code has it.  [GetContextOutputs] is empty for a null
    reference, and for a reference that does not resolve or whose asset
    has no movie scene.  Otherwise it is the list of the non-empty event
    names authored in the flow sections of the flow tracks, in order: one
    pin name for every authored occurrence, so that a name authored
    several times appears as many times. *)
Theorem GetContextOutputs_lists_every_occurrence this r :
  (Sequence (Nodes r this) = None -> GetContextOutputs this r = []) /\
  (forall path, Sequence (Nodes r this) = Some path ->
     match Resolve r path with
     | None => GetContextOutputs this r = []
     | Some seq =>
         match GetMovieScene (Assets r seq) with
         | None => GetContextOutputs this r = []
         | Some ms =>
             GetContextOutputs this r = filter NonEmpty (AuthoredEventNames ms) /\
             ~ In "" (GetContextOutputs this r) /\
             forall name, name <> "" ->
               count_occ string_dec (GetContextOutputs this r) name =
               count_occ string_dec (AuthoredEventNames ms) name
         end
     end).
Proof.
  unfold GetContextOutputs. split.
  - intros ->. reflexivity.
  - intros path ->.
    destruct (Resolve r path) as [seq | ]; [ | reflexivity].
    destruct (GetMovieScene (Assets r seq)) as [ms | ]; [ | reflexivity].
    rewrite CollectTracks_filter. cbn [app]. fold (AuthoredEventNames ms).
    split; [reflexivity | ]. split.
    + intros Hin. apply filter_In in Hin. destruct Hin as [_ Hc]. discriminate Hc.
    + intros name Hne. now apply count_occ_filter_NonEmpty.
Qed.

Lemma GetContextOutputs_lists_every_occurrence_witness :
  GetContextOutputs 0 Examples.rt_hit = filter NonEmpty (AuthoredEventNames Examples.HitScene) /\
  count_occ string_dec (GetContextOutputs 0 Examples.rt_hit) "Hit" =
  count_occ string_dec (AuthoredEventNames Examples.HitScene) "Hit".
Proof.
  pose proof (proj2 (GetContextOutputs_lists_every_occurrence 0 Examples.rt_hit)
                "/Game/Seq" eq_refl) as H.
  cbn in H. destruct H as (Heq & _ & Hcount).
  split; [exact Heq | ].
  apply Hcount. discriminate.
Defined.

(** C6 as stated fails: the event [Hit], authored in two flow sections,
    is returned twice, not once. *)
Lemma GetContextOutputs_repeats_an_event_name :
  Sequence (Nodes Examples.rt_hit 0) <> None /\
  In "Hit" (AuthoredEventNames Examples.HitScene) /\
  GetContextOutputs 0 Examples.rt_hit = ["Hit"; "Hit"] /\
  count_occ string_dec (GetContextOutputs 0 Examples.rt_hit) "Hit" <> 1.
Proof.
  split; [discriminate | ].
  split; [left; reflexivity | ].
  split; [reflexivity | ].
  vm_compute. discriminate.
Qed.

(** ** Completion *)

Lemma UObjectPtr_eqb_refl o : UObjectPtr_eqb o o = true.
Proof. destruct o; cbn; apply Nat.eqb_refl. Qed.

Lemma Broadcast_OnFinished_single p n r :
  OnFinished (Players r p) = [(Obj_PlayLevelSequence n, Fn_OnPlaybackFinished)] ->
  Broadcast_OnFinished p r = OnPlaybackFinished n r.
Proof. intros H. unfold Broadcast_OnFinished. rewrite H. reflexivity. Qed.

Lemma Broadcast_OnFinished_none p r :
  OnFinished (Players r p) = [] -> Broadcast_OnFinished p r = r.
Proof. intros H. unfold Broadcast_OnFinished. rewrite H. reflexivity. Qed.

(** C7.  An activation with a world and an asset that loads registers
    [OnPlaybackFinished] of the node once on the new player; when the
    engine then broadcasts the end of the playback, "Completed" is
    triggered once and nothing else is called.  [Cleanup] (which returns
    when the sequence has a movie scene) leaves no registration on the
    player, and a later broadcast of its [OnFinished] changes nothing. *)
Theorem Completed_exactly_once this PinName r w seq :
  FlowSubsystemWorld r = Some w ->
  LoadAsset r (Sequence (Nodes r this)) = Some seq ->
  let p := NextPlayer r in
  let r1 := ExecuteInput this PinName r in
  let r2 := Broadcast_OnFinished p r1 in
  SequencePlayer (Nodes r1 this) = Some p /\
  OnFinished (Players r1 p) = [(Obj_PlayLevelSequence this, Fn_OnPlaybackFinished)] /\
  Trace r2 = Trace r1 ++ [Call_TriggerOutput this "Completed" None] /\
  (GetMovieScene (Assets r seq) <> None ->
   exists r3,
     Cleanup this r2 = Some r3 /\
     OnFinished (Players r3 p) = [] /\
     Broadcast_OnFinished p r3 = r3).
Proof.
  intros Hw Hl p r1 r2.
  destruct (ExecuteInput_succeeded this PinName r w seq Hw Hl)
    as (_ & Hseq & Hp & Hfin & _ & Hassets).
  fold p r1 in Hseq, Hp, Hfin, Hassets.
  assert (Hr2 : r2 = OnPlaybackFinished this r1)
    by (apply Broadcast_OnFinished_single; exact Hfin).
  clearbody r2 r1 p. subst r2.
  split; [exact Hp | ]. split; [exact Hfin | ].
  split; [reflexivity | ].
  intros Hms.
  destruct (Cleanup_releases this (OnPlaybackFinished this r1))
    as (r3 & Hc & _ & _ & _ & Hpl & _).
  { intros seq' Hseq'. cbn in Hseq'.
    rewrite Hseq in Hseq'. injection Hseq' as <-.
    cbn. rewrite Hassets. exact Hms. }
  exists r3. split; [exact Hc | ].
  assert (Hnone : OnFinished (Players r3 p) = []).
  { destruct (Hpl p) as [Hf _].
    - exact Hp.
    - rewrite Hf. cbn [OnPlaybackFinished TriggerOutput record Players].
      rewrite Hfin. cbn. now rewrite Nat.eqb_refl. }
  split; [exact Hnone | ].
  apply Broadcast_OnFinished_none. exact Hnone.
Qed.

Lemma Completed_exactly_once_witness :
  let r1 := ExecuteInput 0 "In" Examples.rt_hit in
  let r2 := Broadcast_OnFinished 0 r1 in
  Trace r2 = Trace r1 ++ [Call_TriggerOutput 0 "Completed" None] /\
  exists r3, Cleanup 0 r2 = Some r3 /\ Broadcast_OnFinished 0 r3 = r3.
Proof.
  assert (Hms : GetMovieScene (Assets Examples.rt_hit 0) <> None) by discriminate.
  destruct (Completed_exactly_once 0 "In" Examples.rt_hit 0 0 eq_refl eq_refl)
    as (_ & _ & Ht & Hclean).
  destruct (Hclean Hms) as (r3 & Hc & _ & Hb).
  split; [exact Ht | ].
  exists r3. split; [exact Hc | exact Hb].
Defined.

End PlayLevelSequenceFacts.

(** * Properties of the search panel *)

Module FindInFlowFacts.
Import UnrealString FindInFlow.

(** ** Strings *)

Lemma append_nil_r (s : string) : (s ++ "")%string = s.
Proof. induction s as [ | c s IH]; cbn; [reflexivity | now rewrite IH]. Qed.

Lemma append_assoc (a b c : string) : ((a ++ b) ++ c)%string = (a ++ b ++ c)%string.
Proof. induction a as [ | x a IH]; cbn; [reflexivity | now rewrite IH]. Qed.

Lemma ToLowerString_app (a b : string) :
  ToLowerString (a ++ b)%string = (ToLowerString a ++ ToLowerString b)%string.
Proof. induction a as [ | x a IH]; cbn; [reflexivity | now rewrite IH]. Qed.

Lemma StartsWithIgnoreCase_spec (sub s : FString) :
  StartsWithIgnoreCase s sub = true <->
  exists post, ToLowerString s = (ToLowerString sub ++ post)%string.
Proof.
  revert s. induction sub as [ | b sub IH]; intros s; cbn.
  - split; [intros _; now exists (ToLowerString s) | reflexivity].
  - destruct s as [ | a s]; cbn.
    + split; [discriminate | intros (post & H); discriminate H].
    + rewrite andb_true_iff, Ascii.eqb_eq, IH. split.
      * intros (Hc & post & Hs). exists post. now rewrite Hc, Hs.
      * intros (post & H). injection H as Hc Hs. split; [exact Hc | now exists post].
Qed.

Lemma Contains_spec (s sub : FString) :
  Contains s sub = true <-> IsSubstringIgnoringCase sub s.
Proof.
  unfold IsSubstringIgnoringCase.
  induction s as [ | a s IH].
  - cbn [Contains]. rewrite orb_false_r, StartsWithIgnoreCase_spec. split.
    + intros (post & H). now exists ""%string, post.
    + intros (pre & post & H). destruct pre as [ | c pre]; [now exists post | discriminate H].
  - cbn [Contains]. rewrite orb_true_iff, StartsWithIgnoreCase_spec, IH. split.
    + intros [(post & H) | (pre & post & H)].
      * now exists ""%string, post.
      * exists (String (ToLower a) pre), post. cbn. now rewrite H.
    + intros (pre & post & H). destruct pre as [ | c pre].
      * left. now exists post.
      * right. cbn in H. injection H as _ H. now exists pre, post.
Qed.

Lemma StringMatchesSearchTokens_spec Tokens s :
  StringMatchesSearchTokens Tokens s = true <->
  Forall (fun Token => IsSubstringIgnoringCase Token s) Tokens.
Proof.
  induction Tokens as [ | Token rest IH]; cbn.
  - split; [constructor | reflexivity].
  - destruct (Contains s Token) eqn:Hc; cbn.
    + rewrite IH. split.
      * intros H. constructor; [now apply Contains_spec | exact H].
      * intros H. now inversion H.
    + split; [discriminate | ].
      intros H. inversion H as [ | ? ? Hhd _]. apply Contains_spec in Hhd. congruence.
Qed.

Lemma SearchString_NodeText Node :
  SearchString Node = Replace_Space_Empty (NodeText Node).
Proof.
  unfold SearchString, NodeText.
  destruct (Cast_FlowGraphNode Node) as [FlowNode | ].
  - now rewrite !append_assoc.
  - now rewrite append_nil_r.
Qed.

(** ** The loop of MatchTokens *)

Lemma MatchTokens_body_app Tokens b Found Node :
  MatchTokens_body Tokens b Found Node = Found ++ MatchTokens_body Tokens b [] Node.
Proof.
  unfold MatchTokens_body.
  destruct (orb _ _); [reflexivity | now rewrite app_nil_r].
Qed.

Lemma MatchTokens_loop Tokens b nodes Found :
  fold_left (MatchTokens_body Tokens b) nodes Found =
  Found ++ flat_map (MatchTokens_body Tokens b []) nodes.
Proof.
  revert Found. induction nodes as [ | Node nodes IH]; intros Found; cbn.
  - now rewrite app_nil_r.
  - rewrite IH, (MatchTokens_body_app Tokens b Found Node). now rewrite app_assoc.
Qed.

Lemma InitiateSearch_items w w' :
  InitiateSearch w = Some w' ->
  ItemsFound w' = match SearchHits w with [] => [NoResults] | _ :: _ => SearchHits w end.
Proof.
  unfold InitiateSearch, SearchHits.
  destruct (ParseIntoArray (SearchValue w)) as [ | Token rest].
  - cbn. intros H. injection H as <-. reflexivity.
  - cbn [List.length Nat.ltb Nat.leb]. unfold MatchTokens.
    cbn [set_RootSearchResult set_HighlightText set_ItemsFound TreeView_calls
         FlowAssetEditorPtr bFindInSubGraph ItemsFound SearchValue].
    destruct (FlowAssetEditorPtr w) as [editor | ]; [ | discriminate].
    destruct (FocusedGraph editor) as [Graph | ].
    + rewrite MatchTokens_loop. cbn [app].
      destruct (flat_map _ (Nodes Graph)) as [ | hit hits];
        cbn; intros H; injection H as <-; reflexivity.
    + cbn. intros H. injection H as <-. reflexivity.
Qed.

Lemma InitiateSearch_faults_iff w :
  InitiateSearch w = None <->
  FlowAssetEditorPtr w = None /\ ParseIntoArray (SearchValue w) <> [].
Proof.
  unfold InitiateSearch.
  destruct (ParseIntoArray (SearchValue w)) as [ | Token rest].
  - cbn. split; [discriminate | intros [_ H]; now contradiction H].
  - cbn [List.length Nat.ltb Nat.leb]. unfold MatchTokens.
    cbn [set_RootSearchResult set_HighlightText set_ItemsFound TreeView_calls
         FlowAssetEditorPtr bFindInSubGraph ItemsFound SearchValue].
    destruct (FlowAssetEditorPtr w) as [editor | ].
    + destruct (FocusedGraph editor); (split; [discriminate | intros [H _]; discriminate H]).
    + split; [intros _; split; [reflexivity | discriminate] | reflexivity].
Qed.

(** C8.  [InitiateSearch] returns unless the editor is gone while the
    query has tokens.  When it returns, the result list is not empty: it
    is the list of the hits, or, when there is none (in particular when
    the query has no token or the graph is not available), the single
    entry "No Results found", which has no graph node. *)
Theorem InitiateSearch_never_empty w :
  (InitiateSearch w = None <->
   FlowAssetEditorPtr w = None /\ ParseIntoArray (SearchValue w) <> []) /\
  (forall w', InitiateSearch w = Some w' ->
     ItemsFound w' <> [] /\
     (SearchHits w = [] -> ItemsFound w' = [NoResults]) /\
     (SearchHits w <> [] -> ItemsFound w' = SearchHits w)) /\
  (ParseIntoArray (SearchValue w) = [] -> SearchHits w = []) /\
  (forall editor, FlowAssetEditorPtr w = Some editor -> FocusedGraph editor = None ->
     SearchHits w = []) /\
  Value NoResults = "No Results found"%string /\
  GraphNode NoResults = None /\
  Children NoResults = [].
Proof.
  split; [apply InitiateSearch_faults_iff | ].
  split.
  { intros w' H. apply InitiateSearch_items in H.
    destruct (SearchHits w) as [ | hit hits]; rewrite H.
    - split; [discriminate | ]. split; [reflexivity | intros Hne; now contradiction Hne].
    - split; [discriminate | ]. split; [discriminate | reflexivity]. }
  split.
  { intros Hnil. unfold SearchHits. now rewrite Hnil. }
  split.
  { intros editor He Hg. unfold SearchHits. rewrite He, Hg.
    destruct (ParseIntoArray (SearchValue w)); reflexivity. }
  repeat split.
Qed.

Lemma InitiateSearch_never_empty_witness :
  exists w',
    InitiateSearch (Examples.panel "zebra") = Some w' /\
    ItemsFound w' = [NoResults].
Proof.
  destruct (InitiateSearch_never_empty (Examples.panel "zebra")) as (_ & Hres & _).
  eexists. split; [reflexivity | ].
  destruct (Hres _ eq_refl) as (_ & Hnone & _).
  apply Hnone. reflexivity.
Defined.

(** ** Direct matches *)

Lemma SubGraphChildren_off Tokens Node : SubGraphChildren Tokens false Node = [].
Proof.
  unfold SubGraphChildren. destruct (Cast_FlowGraphNode Node); reflexivity.
Qed.

Lemma MatchTokens_body_direct Tokens Node :
  MatchTokens_body Tokens false [] Node =
  if bNodeMatchesSearch Tokens Node
  then [mkResult (GetNodeTitle Node) (Some Node) RootParent []]
  else [].
Proof.
  unfold MatchTokens_body. rewrite SubGraphChildren_off. reflexivity.
Qed.

Lemma direct_hits Tokens nodes res :
  In res (flat_map (MatchTokens_body Tokens false []) nodes) <->
  exists Node, In Node nodes /\ bNodeMatchesSearch Tokens Node = true /\
               res = mkResult (GetNodeTitle Node) (Some Node) RootParent [].
Proof.
  rewrite in_flat_map. split.
  - intros (Node & Hin & Hres). exists Node. rewrite MatchTokens_body_direct in Hres.
    destruct (bNodeMatchesSearch Tokens Node); [ | contradiction Hres].
    destruct Hres as [<- | []]. auto.
  - intros (Node & Hin & Hm & ->). exists Node. split; [exact Hin | ].
    rewrite MatchTokens_body_direct, Hm. now left.
Qed.

(** C10, as the code has it.  The direct match of a node is: every token
    occurs, the case of the letters [A] to [Z] ignored, in the
    concatenation of title, class name, comment and (flow nodes)
    description with its spaces removed; no token at all matches every
    node.  With the sub-graph search off, a search with tokens lists a
    result for exactly the nodes of the graph that match directly. *)
Theorem direct_match_ignores_case Tokens Node :
  (bNodeMatchesSearch Tokens Node = true <->
   Forall (fun Token =>
             IsSubstringIgnoringCase Token (Replace_Space_Empty (NodeText Node))) Tokens) /\
  bNodeMatchesSearch [] Node = true /\
  (forall w editor Graph,
     FlowAssetEditorPtr w = Some editor ->
     FocusedGraph editor = Some Graph ->
     bFindInSubGraph w = false ->
     ParseIntoArray (SearchValue w) = Tokens ->
     Tokens <> [] ->
     exists w',
       InitiateSearch w = Some w' /\
       ((exists res, In res (ItemsFound w') /\ GraphNode res = Some Node) <->
        In Node (Nodes Graph) /\ bNodeMatchesSearch Tokens Node = true)).
Proof.
  split.
  { unfold bNodeMatchesSearch.
    rewrite StringMatchesSearchTokens_spec, SearchString_NodeText. reflexivity. }
  split; [reflexivity | ].
  intros w editor Graph He Hg Hb Ht Hne.
  destruct (InitiateSearch w) as [w' | ] eqn:Hrun.
  2:{ apply InitiateSearch_faults_iff in Hrun. destruct Hrun as [Hnone _]. congruence. }
  exists w'. split; [reflexivity | ].
  apply InitiateSearch_items in Hrun.
  assert (Hhits : SearchHits w = flat_map (MatchTokens_body Tokens false []) (Nodes Graph)).
  { unfold SearchHits. rewrite Ht, He, Hg, Hb.
    destruct Tokens; [now contradiction Hne | reflexivity]. }
  rewrite Hhits in Hrun. split.
  - intros (res & Hin & Hnode).
    destruct (flat_map _ (Nodes Graph)) as [ | hit hits] eqn:Hflat; rewrite Hrun in Hin.
    + destruct Hin as [<- | []]. discriminate Hnode.
    + rewrite <- Hflat in Hin. apply direct_hits in Hin.
      destruct Hin as (Node' & Hin' & Hm & ->). cbn in Hnode.
      injection Hnode as <-. auto.
  - intros (Hin & Hm).
    assert (Hres : In (mkResult (GetNodeTitle Node) (Some Node) RootParent [])
                      (flat_map (MatchTokens_body Tokens false []) (Nodes Graph))).
    { apply direct_hits. exists Node. auto. }
    exists (mkResult (GetNodeTitle Node) (Some Node) RootParent []).
    split; [ | reflexivity].
    destruct (flat_map _ (Nodes Graph)) as [ | hit hits]; [contradiction Hres | ].
    rewrite Hrun. exact Hres.
Qed.

Lemma direct_match_ignores_case_witness :
  exists w',
    InitiateSearch (Examples.panel "play SEQ") = Some w' /\
    ((exists res, In res (ItemsFound w') /\ GraphNode res = Some Examples.PlayNode) <->
     In Examples.PlayNode [Examples.PlayNode; Examples.StartNode] /\
     bNodeMatchesSearch ["play"; "SEQ"]%string Examples.PlayNode = true).
Proof.
  destruct (direct_match_ignores_case ["play"; "SEQ"]%string Examples.PlayNode)
    as (_ & _ & H).
  refine (H (Examples.panel "play SEQ") _ _ eq_refl eq_refl eq_refl eq_refl _).
  discriminate.
Defined.

(** C10 as stated fails: the token [play] is not a substring of the
    search string [PlayFlowGraphNodeIntroSeq] of the node, and the node
    is a direct match and is listed. *)
Lemma direct_match_is_not_letter_for_letter :
  Replace_Space_Empty (NodeText Examples.PlayNode) = "PlayFlowGraphNodeIntroSeq"%string /\
  ParseIntoArray "play" = ["play"%string] /\
  ~ IsSubstring "play" (Replace_Space_Empty (NodeText Examples.PlayNode)) /\
  bNodeMatchesSearch ["play"%string] Examples.PlayNode = true /\
  exists w',
    InitiateSearch (Examples.panel "play") = Some w' /\
    ItemsFound w' = [mkResult "Play" (Some Examples.PlayNode) RootParent []].
Proof.
  split; [reflexivity | ]. split; [reflexivity | ]. split.
  - intros (pre & post & H). vm_compute in H.
    repeat (destruct pre as [ | ? pre];
            [ discriminate H
            | cbn in H; first [discriminate H | injection H as _ H] ]).
  - split; [reflexivity | ]. eexists. split; reflexivity.
Qed.

End FindInFlowFacts.

(** * Further properties of UFlowNode_PlayLevelSequence *)

Module PlayLevelSequenceExtra.
Import UnrealString PlayLevelSequence PlayLevelSequenceMembers PlayLevelSequenceFacts.

(** ** What the delegate loops keep *)

Lemma SectionEntryPoints_SetSectionDelegate d s :
  SectionEntryPoints (SetSectionDelegate d s) = SectionEntryPoints s.
Proof. destruct s; reflexivity. Qed.

Lemma IsFlowTrack_SetTrackDelegates d t :
  IsFlowTrack (SetTrackDelegates d t) = IsFlowTrack t.
Proof.
  unfold SetTrackDelegates. destruct (IsFlowTrack t) eqn:Hf; [ | exact Hf].
  unfold IsFlowTrack in *. cbn. exact Hf.
Qed.

Lemma TrackEntryPoints_SetTrackDelegates d t :
  TrackEntryPoints (SetTrackDelegates d t) = TrackEntryPoints t.
Proof.
  unfold TrackEntryPoints. rewrite IsFlowTrack_SetTrackDelegates.
  destruct (IsFlowTrack t) eqn:Hf; [ | reflexivity].
  unfold SetTrackDelegates. rewrite Hf. cbn.
  induction (GetAllSections t) as [ | s l IH]; cbn; [reflexivity | ].
  now rewrite SectionEntryPoints_SetSectionDelegate, IH.
Qed.

Lemma AuthoredEventNames_SetFlowDelegates d ms :
  AuthoredEventNames (SetFlowDelegates d ms) = AuthoredEventNames ms.
Proof.
  unfold AuthoredEventNames, SetFlowDelegates. cbn.
  induction (GetMasterTracks ms) as [ | t l IH]; cbn; [reflexivity | ].
  now rewrite TrackEntryPoints_SetTrackDelegates, IH.
Qed.

Lemma SetSectionDelegate_twice d d' s :
  SetSectionDelegate d (SetSectionDelegate d' s) = SetSectionDelegate d s.
Proof. destruct s; reflexivity. Qed.

Lemma SetTrackDelegates_twice d d' t :
  SetTrackDelegates d (SetTrackDelegates d' t) = SetTrackDelegates d t.
Proof.
  unfold SetTrackDelegates at 1. rewrite IsFlowTrack_SetTrackDelegates.
  unfold SetTrackDelegates. destruct (IsFlowTrack t); [ | reflexivity].
  cbn. rewrite map_map. f_equal. apply map_ext. intros s. apply SetSectionDelegate_twice.
Qed.

Lemma SetFlowDelegates_twice d d' ms :
  SetFlowDelegates d (SetFlowDelegates d' ms) = SetFlowDelegates d ms.
Proof.
  unfold SetFlowDelegates. cbn. rewrite map_map. f_equal.
  apply map_ext. intros t. apply SetTrackDelegates_twice.
Qed.

Lemma SetFlowDelegates_same d ms :
  AllFlowSectionsBoundTo d ms -> SetFlowDelegates d ms = ms.
Proof.
  intros Hall. destruct ms as [tracks]. unfold SetFlowDelegates. cbn. f_equal.
  rewrite <- (map_id tracks) at 2. apply map_ext_in. intros t Ht.
  unfold SetTrackDelegates. destruct (IsFlowTrack t) eqn:Hf; [ | reflexivity].
  destruct t as [c secs]. cbn. f_equal.
  rewrite <- (map_id secs) at 2. apply map_ext_in. intros s Hs.
  destruct s as [eps d' | k]; [ | reflexivity]. cbn.
  now rewrite (Hall _ Ht Hf eps d' Hs).
Qed.

(** ** The shape of the three state changes *)

Lemma upd_upd {A : Type} (f : nat -> A) k v v' i :
  upd (upd f k v) k v' i = upd f k v' i.
Proof. unfold upd. destruct (Nat.eqb i k); reflexivity. Qed.

Lemma CreatePlayer_cases this settings r :
  match LoadAsset r (Sequence (Nodes r this)) with
  | None => CreatePlayer this settings r = Some (set_LoadedSequence this None r)
  | Some seq =>
      match GetMovieScene (Assets r seq) with
      | None => CreatePlayer this settings r = None
      | Some ms =>
          exists r',
            CreatePlayer this settings r = Some r' /\
            Trace r' = Trace r ++
              [Call_CreateLevelSequencePlayer this seq settings (NextPlayer r)] /\
            (forall n, Nodes r' n =
               upd (Nodes r) this
                 (mkNode (Sequence (Nodes r this)) (Some seq) (Some (NextPlayer r))) n) /\
            (forall q, Players r' q =
               upd (Players r) (NextPlayer r) (mkPlayer this seq settings [] false) q) /\
            (forall a, Assets r' a =
               upd (Assets r) seq
                 (mkLevelSequence
                    (Some (SetFlowDelegates (Some Fn_OnSequenceEventExecuted) ms))) a) /\
            Resolve r' = Resolve r /\
            NextPlayer r' = S (NextPlayer r)
      end
  end.
Proof.
  unfold CreatePlayer.
  destruct (LoadAsset r (Sequence (Nodes r this))) as [seq | ]; [ | reflexivity].
  cbn. unfold ForEachFlowSection. cbn.
  destruct (GetMovieScene (Assets r seq)) as [ms | ]; [ | reflexivity].
  eexists. split; [reflexivity | ]. cbn. rewrite !upd_same. cbn.
  split; [reflexivity | ].
  split; [intros n; apply upd_upd | ].
  repeat split.
Qed.

Lemma Cleanup_faults_iff this r :
  Cleanup this r = None <->
  exists seq, LoadedSequence (Nodes r this) = Some seq /\ GetMovieScene (Assets r seq) = None.
Proof.
  unfold Cleanup.
  destruct (LoadedSequence (Nodes r this)) as [seq | ].
  - unfold ForEachFlowSection.
    destruct (GetMovieScene (Assets r seq)) as [ms | ] eqn:Hg.
    + split.
      * intros H. exfalso. revert H.
        match goal with |- context [SequencePlayer ?n] => destruct (SequencePlayer n) end;
          discriminate.
      * intros (seq' & Heq & Hn). injection Heq as <-. congruence.
    + split; [intros _; now exists seq | reflexivity].
  - split.
    + destruct (SequencePlayer (Nodes r this)); discriminate.
    + intros (seq' & Heq & _). discriminate Heq.
Qed.

Lemma Cleanup_frame this r r' :
  Cleanup this r = Some r' ->
  Trace r' = Trace r ++
    match SequencePlayer (Nodes r this) with
    | Some p => [Call_RemoveAll p this; Call_Stop p]
    | None => []
    end /\
  Resolve r' = Resolve r /\
  FlowSubsystemWorld r' = FlowSubsystemWorld r /\
  NextPlayer r' = NextPlayer r /\
  Sequence (Nodes r' this) = Sequence (Nodes r this) /\
  (forall n, n <> this -> Nodes r' n = Nodes r n) /\
  (forall q, SequencePlayer (Nodes r this) <> Some q -> Players r' q = Players r q) /\
  (forall a, LoadedSequence (Nodes r this) <> Some a -> Assets r' a = Assets r a).
Proof.
  unfold Cleanup.
  destruct (LoadedSequence (Nodes r this)) as [seq | ] eqn:Hl.
  - unfold ForEachFlowSection.
    destruct (GetMovieScene (Assets r seq)) as [ms | ]; [ | discriminate].
    upd_simpl.
    destruct (SequencePlayer (Nodes r this)) as [p | ] eqn:Hp;
      intros H; injection H as <-; upd_simpl.
    + rewrite <- app_assoc. cbn.
      repeat split; try reflexivity.
      * intros n Hn. now rewrite !upd_other.
      * intros q Hq. rewrite !upd_other; [reflexivity | congruence | congruence].
      * intros a Ha. rewrite upd_other; [reflexivity | congruence].
    + rewrite app_nil_r.
      repeat split; try reflexivity.
      * intros n Hn. now rewrite !upd_other.
      * intros a Ha. rewrite upd_other; [reflexivity | congruence].
  - destruct (SequencePlayer (Nodes r this)) as [p | ] eqn:Hp;
      intros H; injection H as <-; upd_simpl.
    + rewrite <- app_assoc. cbn.
      repeat split; try reflexivity.
      * intros n Hn. now rewrite !upd_other.
      * intros q Hq. rewrite !upd_other; [reflexivity | congruence | congruence].
    + rewrite app_nil_r. repeat split; reflexivity.
Qed.

Lemma ExecuteInput_frame this PinName r :
  let r' := ExecuteInput this PinName r in
  Resolve r' = Resolve r /\
  FlowSubsystemWorld r' = FlowSubsystemWorld r /\
  Assets r' = Assets r /\
  Sequence (Nodes r' this) = Sequence (Nodes r this) /\
  LoadedSequence (Nodes r' this) = LoadAsset r (Sequence (Nodes r this)) /\
  (forall n, n <> this -> Nodes r' n = Nodes r n) /\
  (forall q, q <> NextPlayer r -> Players r' q = Players r q).
Proof.
  cbv zeta. unfold ExecuteInput.
  destruct (FlowSubsystemWorld r) as [w | ] eqn:Hw;
    destruct (LoadAsset r (Sequence (Nodes r this))) as [seq | ] eqn:Hl;
    upd_simpl; repeat split; try reflexivity; try exact Hw;
    try (intros n Hn; now rewrite ?upd_other).
Qed.

(** ** CreatePlayer *)

(** X1.  [CreatePlayer] on a reference that loads a sequence with a movie
    scene makes one call, the creation of the player; it stores the
    sequence and the player, which is not playing and has nothing
    registered on [OnFinished]; every flow section of every flow track is
    bound to [OnSequenceEventExecuted], and the authored event names are
    as before. *)
Theorem CreatePlayer_creates_and_binds this settings r seq ms :
  LoadAsset r (Sequence (Nodes r this)) = Some seq ->
  GetMovieScene (Assets r seq) = Some ms ->
  let p := NextPlayer r in
  exists r' ms',
    CreatePlayer this settings r = Some r' /\
    Trace r' = Trace r ++ [Call_CreateLevelSequencePlayer this seq settings p] /\
    LoadedSequence (Nodes r' this) = Some seq /\
    SequencePlayer (Nodes r' this) = Some p /\
    IsPlaying (Players r' p) = false /\
    OnFinished (Players r' p) = [] /\
    Settings (Players r' p) = settings /\
    GetMovieScene (Assets r' seq) = Some ms' /\
    AllFlowSectionsBoundTo (Some Fn_OnSequenceEventExecuted) ms' /\
    AuthoredEventNames ms' = AuthoredEventNames ms.
Proof.
  intros Hl Hms p. subst p.
  pose proof (CreatePlayer_cases this settings r) as H. rewrite Hl, Hms in H.
  destruct H as (r' & Hc & Ht & Hn & Hp & Ha & _).
  exists r', (SetFlowDelegates (Some Fn_OnSequenceEventExecuted) ms).
  split; [exact Hc | ]. split; [exact Ht | ].
  rewrite Hn, Hp, Ha, !upd_same. cbn.
  repeat split.
  - apply SetFlowDelegates_all.
  - apply AuthoredEventNames_SetFlowDelegates.
Qed.

Lemma CreatePlayer_creates_and_binds_witness :
  exists r' ms',
    CreatePlayer 0 (CustomPlaybackSettings 3) Examples.rt_hit = Some r' /\
    SequencePlayer (Nodes r' 0) = Some 0 /\
    IsPlaying (Players r' 0) = false /\
    GetMovieScene (Assets r' 0) = Some ms' /\
    AllFlowSectionsBoundTo (Some Fn_OnSequenceEventExecuted) ms'.
Proof.
  destruct (CreatePlayer_creates_and_binds 0 (CustomPlaybackSettings 3) Examples.rt_hit
              0 Examples.HitScene eq_refl eq_refl)
    as (r' & ms' & Hc & _ & _ & Hp & Hi & _ & _ & Hg & Hall & _).
  exists r', ms'. repeat split; assumption.
Defined.

(** X2.  [CreatePlayer] faults exactly when the reference loads a
    sequence without movie scene.  When nothing loads it makes no call,
    creates no player and leaves [LoadedSequence] null. *)
Theorem CreatePlayer_faults_iff this settings r :
  (CreatePlayer this settings r = None <->
   exists seq, LoadAsset r (Sequence (Nodes r this)) = Some seq /\
               GetMovieScene (Assets r seq) = None) /\
  (LoadAsset r (Sequence (Nodes r this)) = None ->
   exists r',
     CreatePlayer this settings r = Some r' /\
     Trace r' = Trace r /\
     LoadedSequence (Nodes r' this) = None /\
     SequencePlayer (Nodes r' this) = SequencePlayer (Nodes r this) /\
     NextPlayer r' = NextPlayer r).
Proof.
  pose proof (CreatePlayer_cases this settings r) as H.
  destruct (LoadAsset r (Sequence (Nodes r this))) as [seq | ] eqn:Hl.
  - split; [ | discriminate].
    destruct (GetMovieScene (Assets r seq)) as [ms | ] eqn:Hms.
    + destruct H as (r' & Hc & _). rewrite Hc. split; [discriminate | ].
      intros (seq' & Heq & Hn). injection Heq as <-. congruence.
    + split; [intros _; now exists seq | intros _; exact H].
  - split.
    + rewrite H. split; [discriminate | intros (seq & Heq & _); discriminate Heq].
    + intros _. eexists. split; [exact H | ]. upd_simpl. repeat split.
Qed.

Lemma CreatePlayer_faults_iff_witness :
  CreatePlayer 0 DefaultPlaybackSettings Examples.rt_no_movie_scene = None.
Proof.
  apply (proj1 (CreatePlayer_faults_iff 0 DefaultPlaybackSettings Examples.rt_no_movie_scene)).
  exists 0. split; reflexivity.
Defined.

(** ** Cleanup *)

(** X3.  [Cleanup] faults exactly when the node holds a loaded sequence
    without movie scene.  Otherwise it returns: both members are null, the
    only calls are [RemoveAll] and [Stop] on the player the node held
    (none when it held none), and a second [Cleanup] returns the same
    runtime without a call. *)
Theorem Cleanup_returns_and_is_idempotent this r :
  (Cleanup this r = None <->
   exists seq, LoadedSequence (Nodes r this) = Some seq /\
               GetMovieScene (Assets r seq) = None) /\
  (forall r', Cleanup this r = Some r' ->
     LoadedSequence (Nodes r' this) = None /\
     SequencePlayer (Nodes r' this) = None /\
     Trace r' = Trace r ++
       match SequencePlayer (Nodes r this) with
       | Some p => [Call_RemoveAll p this; Call_Stop p]
       | None => []
       end /\
     (forall p, SequencePlayer (Nodes r this) = Some p ->
        IsPlaying (Players r' p) = false /\
        forall fn, ~ In (Obj_PlayLevelSequence this, fn) (OnFinished (Players r' p))) /\
     Cleanup this r' = Some r').
Proof.
  split; [apply Cleanup_faults_iff | ].
  intros r' Hc.
  destruct (Cleanup_releases this r) as (r'' & Hc' & Hl & Hp & _ & Hpl & Hidem).
  { intros seq Hseq Hnone.
    assert (Hf : Cleanup this r = None) by (apply Cleanup_faults_iff; now exists seq).
    congruence. }
  assert (r'' = r') by congruence. subst r''.
  split; [exact Hl | ]. split; [exact Hp | ].
  split; [apply (Cleanup_frame this r r' Hc) | ].
  split; [ | exact Hidem].
  intros p Hsp. destruct (Hpl p Hsp) as [Hf Hi]. split; [exact Hi | ].
  intros fn Hin. rewrite Hf in Hin. apply filter_In in Hin. destruct Hin as [_ Hb].
  cbn in Hb. now rewrite Nat.eqb_refl in Hb.
Qed.

Lemma Cleanup_returns_and_is_idempotent_witness :
  exists r',
    Cleanup 0 (ExecuteInput 0 "In" Examples.rt_hit) = Some r' /\
    SequencePlayer (Nodes r' 0) = None /\
    Cleanup 0 r' = Some r'.
Proof.
  destruct (Cleanup 0 (ExecuteInput 0 "In" Examples.rt_hit)) as [r' | ] eqn:Hc;
    [ | discriminate Hc].
  destruct (proj2 (Cleanup_returns_and_is_idempotent 0 (ExecuteInput 0 "In" Examples.rt_hit))
              r' Hc) as (_ & Hp & _ & _ & Hidem).
  exists r'. repeat split; assumption.
Defined.

Lemma Cleanup_asset this r r' seq ms :
  Cleanup this r = Some r' ->
  LoadedSequence (Nodes r this) = Some seq ->
  GetMovieScene (Assets r seq) = Some ms ->
  Assets r' seq = mkLevelSequence (Some (SetFlowDelegates None ms)).
Proof.
  unfold Cleanup. intros H Hl Hms. rewrite Hl in H.
  unfold ForEachFlowSection in H. rewrite Hms in H.
  revert H. upd_simpl.
  destruct (SequencePlayer (Nodes r this)); intros H; injection H as <-;
    upd_simpl; reflexivity.
Qed.

Lemma LevelSequence_eta (x : ULevelSequence) ms :
  GetMovieScene x = Some ms -> x = mkLevelSequence (Some ms).
Proof. destruct x. cbn. now intros ->. Qed.

(** X4.  [CreatePlayer] followed by [Cleanup]: three calls (create,
    [RemoveAll], [Stop]), both members null again, the player stopped,
    and every flow section unbound.  When the flow sections were unbound
    before, the sequence is exactly as it was. *)
Theorem CreatePlayer_then_Cleanup this settings r seq ms :
  LoadAsset r (Sequence (Nodes r this)) = Some seq ->
  GetMovieScene (Assets r seq) = Some ms ->
  let p := NextPlayer r in
  exists r1 r2,
    CreatePlayer this settings r = Some r1 /\
    Cleanup this r1 = Some r2 /\
    Trace r2 = Trace r ++
      [ Call_CreateLevelSequencePlayer this seq settings p;
        Call_RemoveAll p this;
        Call_Stop p ] /\
    LoadedSequence (Nodes r2 this) = None /\
    SequencePlayer (Nodes r2 this) = None /\
    IsPlaying (Players r2 p) = false /\
    GetMovieScene (Assets r2 seq) = Some (SetFlowDelegates None ms) /\
    AllFlowSectionsBoundTo None (SetFlowDelegates None ms) /\
    (AllFlowSectionsBoundTo None ms -> Assets r2 seq = Assets r seq).
Proof.
  intros Hl Hms p. subst p.
  pose proof (CreatePlayer_cases this settings r) as H. rewrite Hl, Hms in H.
  destruct H as (r1 & Hc & Ht & Hn & Hp & Ha & _).
  assert (Hl1 : LoadedSequence (Nodes r1 this) = Some seq)
    by (rewrite Hn, upd_same; reflexivity).
  assert (Hp1 : SequencePlayer (Nodes r1 this) = Some (NextPlayer r))
    by (rewrite Hn, upd_same; reflexivity).
  assert (Hms1 : GetMovieScene (Assets r1 seq) =
                 Some (SetFlowDelegates (Some Fn_OnSequenceEventExecuted) ms))
    by (rewrite Ha, upd_same; reflexivity).
  destruct (Cleanup_releases this r1) as (r2 & Hc2 & Hl2 & Hp2 & _ & Hpl & _).
  { intros seq' Hseq'. rewrite Hl1 in Hseq'. injection Hseq' as <-.
    rewrite Hms1. discriminate. }
  exists r1, r2. split; [exact Hc | ]. split; [exact Hc2 | ].
  destruct (Cleanup_frame this r1 r2 Hc2) as (Ht2 & _).
  rewrite Hp1 in Ht2.
  split; [rewrite Ht2, Ht, <- app_assoc; reflexivity | ].
  split; [exact Hl2 | ]. split; [exact Hp2 | ].
  split; [exact (proj2 (Hpl _ Hp1)) | ].
  pose proof (Cleanup_asset this r1 r2 seq _ Hc2 Hl1 Hms1) as Ha2.
  rewrite SetFlowDelegates_twice in Ha2.
  split; [rewrite Ha2; reflexivity | ].
  split; [apply SetFlowDelegates_all | ].
  intros Hall. rewrite Ha2, (SetFlowDelegates_same None ms Hall).
  symmetry. now apply LevelSequence_eta.
Qed.

Lemma CreatePlayer_then_Cleanup_witness :
  exists r1 r2,
    CreatePlayer 0 DefaultPlaybackSettings Examples.rt_hit = Some r1 /\
    Cleanup 0 r1 = Some r2 /\
    Assets r2 0 = Assets Examples.rt_hit 0.
Proof.
  destruct (CreatePlayer_then_Cleanup 0 DefaultPlaybackSettings Examples.rt_hit
              0 Examples.HitScene eq_refl eq_refl)
    as (r1 & r2 & Hc & Hc2 & _ & _ & _ & _ & _ & _ & Hback).
  exists r1, r2. split; [exact Hc | ]. split; [exact Hc2 | ].
  apply Hback.
  intros t Ht Hflow eps d Hs.
  destruct Ht as [<- | [<- | []]]; [ | discriminate Hflow].
  destruct Hs as [Hs | [Hs | [Hs | []]]]; now inversion Hs.
Defined.

(** ** The pin catalog at run time *)

Lemma GetContextOutputs_formula n r :
  GetContextOutputs n r =
  match Sequence (Nodes r n) with
  | None => []
  | Some path =>
      match Resolve r path with
      | None => []
      | Some a =>
          match option_map AuthoredEventNames (GetMovieScene (Assets r a)) with
          | Some names => filter NonEmpty names
          | None => []
          end
      end
  end.
Proof.
  unfold GetContextOutputs.
  destruct (Sequence (Nodes r n)) as [path | ]; [ | reflexivity].
  destruct (Resolve r path) as [a | ]; [ | reflexivity].
  destruct (GetMovieScene (Assets r a)) as [ms | ]; [ | reflexivity].
  cbn [option_map]. now rewrite CollectTracks_filter.
Qed.

Lemma SameCatalog_GetContextOutputs r r' n :
  SameCatalog r r' -> GetContextOutputs n r' = GetContextOutputs n r.
Proof.
  intros (Hres & Hseq & Hnames).
  rewrite !GetContextOutputs_formula, Hseq, Hres.
  destruct (Sequence (Nodes r n)) as [path | ]; [ | reflexivity].
  destruct (Resolve r path) as [a | ]; [ | reflexivity].
  now rewrite Hnames.
Qed.

Lemma SameCatalog_ExecuteInput this PinName r :
  SameCatalog r (ExecuteInput this PinName r).
Proof.
  destruct (ExecuteInput_frame this PinName r) as (Hres & _ & Ha & Hs & _ & Hn & _).
  split; [exact Hres | ]. split.
  - intros n. destruct (Nat.eq_dec n this) as [-> | Hne]; [exact Hs | now rewrite Hn].
  - intros a. now rewrite Ha.
Qed.

Lemma SameCatalog_Cleanup this r r' :
  Cleanup this r = Some r' -> SameCatalog r r'.
Proof.
  intros Hc.
  destruct (Cleanup_frame this r r' Hc) as (_ & Hres & _ & _ & Hs & Hn & _ & Ha).
  split; [exact Hres | ]. split.
  - intros n. destruct (Nat.eq_dec n this) as [-> | Hne]; [exact Hs | now rewrite Hn].
  - intros a.
    destruct (LoadedSequence (Nodes r this)) as [seq | ] eqn:Hl.
    + destruct (Nat.eq_dec a seq) as [-> | Hne].
      * destruct (GetMovieScene (Assets r seq)) as [ms | ] eqn:Hms.
        -- rewrite (Cleanup_asset this r r' seq ms Hc Hl Hms).
           cbn [option_map GetMovieScene].
           now rewrite AuthoredEventNames_SetFlowDelegates.
        -- assert (Hf : Cleanup this r = None) by (apply Cleanup_faults_iff; now exists seq).
           congruence.
      * rewrite Ha; [reflexivity | congruence].
    + rewrite Ha; [reflexivity | discriminate].
Qed.

Lemma SameCatalog_CreatePlayer this settings r r' :
  CreatePlayer this settings r = Some r' -> SameCatalog r r'.
Proof.
  intros Hc. pose proof (CreatePlayer_cases this settings r) as H.
  destruct (LoadAsset r (Sequence (Nodes r this))) as [seq | ].
  - destruct (GetMovieScene (Assets r seq)) as [ms | ] eqn:Hms; [ | congruence].
    destruct H as (r'' & Hc' & _ & Hn & _ & Ha & Hres & _).
    assert (r'' = r') by congruence. subst r''.
    split; [exact Hres | ]. split.
    + intros n. rewrite Hn. destruct (Nat.eq_dec n this) as [-> | Hne].
      * now rewrite upd_same.
      * now rewrite upd_other.
    + intros a. rewrite Ha. destruct (Nat.eq_dec a seq) as [-> | Hne].
      * rewrite upd_same, Hms. cbn [option_map GetMovieScene].
        now rewrite AuthoredEventNames_SetFlowDelegates.
      * now rewrite upd_other.
  - assert (r' = set_LoadedSequence this None r) by congruence. subst r'.
    split; [reflexivity | ]. split.
    + intros n. cbn. destruct (Nat.eq_dec n this) as [-> | Hne].
      * now rewrite upd_same.
      * now rewrite upd_other.
    + reflexivity.
Qed.

(** X5.  The context outputs of every node are the same before and after
    an [ExecuteInput], a [CreatePlayer] or a [Cleanup] of any node:
    binding and unbinding the sections never changes the pin names. *)
Theorem GetContextOutputs_stable this n r :
  (forall PinName, GetContextOutputs n (ExecuteInput this PinName r) = GetContextOutputs n r) /\
  (forall settings r', CreatePlayer this settings r = Some r' ->
     GetContextOutputs n r' = GetContextOutputs n r) /\
  (forall r', Cleanup this r = Some r' ->
     GetContextOutputs n r' = GetContextOutputs n r).
Proof.
  split; [ | split].
  - intros PinName. apply SameCatalog_GetContextOutputs, SameCatalog_ExecuteInput.
  - intros settings r' Hc.
    apply SameCatalog_GetContextOutputs, (SameCatalog_CreatePlayer this settings r r' Hc).
  - intros r' Hc. apply SameCatalog_GetContextOutputs, (SameCatalog_Cleanup this r r' Hc).
Qed.

Lemma GetContextOutputs_stable_witness :
  exists r1 r2,
    CreatePlayer 0 DefaultPlaybackSettings Examples.rt_hit = Some r1 /\
    Cleanup 0 r1 = Some r2 /\
    GetContextOutputs 5 r2 = GetContextOutputs 5 Examples.rt_hit.
Proof.
  destruct (CreatePlayer 0 DefaultPlaybackSettings Examples.rt_hit) as [r1 | ] eqn:H1;
    [ | discriminate H1].
  destruct (Cleanup 0 r1) as [r2 | ] eqn:H2.
  - exists r1, r2. split; [reflexivity | ]. split; [exact H2 | ].
    rewrite (proj2 (proj2 (GetContextOutputs_stable 0 5 r1)) r2 H2).
    exact (proj1 (proj2 (GetContextOutputs_stable 0 5 Examples.rt_hit))
             DefaultPlaybackSettings r1 H1).
  - exfalso. injection H1 as <-. discriminate H2.
Defined.

(** ** Activating twice, and two nodes on one sequence *)

Lemma ExecuteInput_NextPlayer this PinName r w seq :
  FlowSubsystemWorld r = Some w ->
  LoadAsset r (Sequence (Nodes r this)) = Some seq ->
  NextPlayer (ExecuteInput this PinName r) = S (NextPlayer r).
Proof.
  intros Hw Hl. unfold ExecuteInput. rewrite Hw, Hl. reflexivity.
Qed.

(** X6.  A second [ExecuteInput] before any [Cleanup] replaces
    [SequencePlayer] by a new player and leaves the first one as it is:
    after the [Cleanup] that follows, the first player is still playing,
    still has [OnPlaybackFinished] of the node registered, and its end
    still triggers "Completed"; only the second player is stopped. *)
Theorem second_activation_abandons_first_player this PinName r w seq :
  FlowSubsystemWorld r = Some w ->
  LoadAsset r (Sequence (Nodes r this)) = Some seq ->
  GetMovieScene (Assets r seq) <> None ->
  let p1 := NextPlayer r in
  let p2 := S (NextPlayer r) in
  let r2 := ExecuteInput this PinName (ExecuteInput this PinName r) in
  SequencePlayer (Nodes r2 this) = Some p2 /\
  exists r3,
    Cleanup this r2 = Some r3 /\
    IsPlaying (Players r3 p2) = false /\
    IsPlaying (Players r3 p1) = true /\
    OnFinished (Players r3 p1) = [(Obj_PlayLevelSequence this, Fn_OnPlaybackFinished)] /\
    Trace (Broadcast_OnFinished p1 r3) =
      Trace r3 ++ [Call_TriggerOutput this "Completed" None].
Proof.
  intros Hw Hl Hms p1 p2 r2. subst p1 p2 r2.
  set (r1 := ExecuteInput this PinName r).
  destruct (ExecuteInput_succeeded this PinName r w seq Hw Hl)
    as (_ & _ & _ & Hfin1 & Hplay1 & _).
  destruct (ExecuteInput_frame this PinName r) as (Hres & Hw1 & Ha1 & Hs1 & _).
  pose proof (ExecuteInput_NextPlayer this PinName r w seq Hw Hl) as Hnext.
  fold r1 in Hfin1, Hplay1, Hres, Hw1, Ha1, Hs1, Hnext.
  assert (Hl1 : LoadAsset r1 (Sequence (Nodes r1 this)) = Some seq).
  { rewrite Hs1. unfold LoadAsset in *. now rewrite Hres. }
  rewrite Hw in Hw1.
  destruct (ExecuteInput_succeeded this PinName r1 w seq Hw1 Hl1)
    as (_ & Hseq2 & Hp2 & _ & _ & Ha2).
  destruct (ExecuteInput_frame this PinName r1) as (_ & _ & _ & _ & _ & _ & Hpl2).
  clearbody r1. rewrite Hnext in *.
  set (r2 := ExecuteInput this PinName r1) in *. clearbody r2.
  split; [exact Hp2 | ].
  destruct (Cleanup_releases this r2) as (r3 & Hc & _ & _ & _ & Hpl3 & _).
  { intros seq' Hseq'. rewrite Hseq2 in Hseq'. injection Hseq' as <-.
    now rewrite Ha2, Ha1. }
  exists r3. split; [exact Hc | ].
  split; [exact (proj2 (Hpl3 _ Hp2)) | ].
  destruct (Cleanup_frame this r2 r3 Hc) as (_ & _ & _ & _ & _ & _ & Hother & _).
  assert (Hsame : Players r3 (NextPlayer r) = Players r1 (NextPlayer r)).
  { rewrite Hother, Hpl2; [reflexivity | | ].
    - apply Nat.neq_succ_diag_r.
    - rewrite Hp2. intros Heq. injection Heq as Heq. revert Heq. apply Nat.neq_succ_diag_l. }
  rewrite Hsame. split; [exact Hplay1 | ]. split; [exact Hfin1 | ].
  rewrite (Broadcast_OnFinished_single (NextPlayer r) this r3); [reflexivity | ].
  now rewrite Hsame.
Qed.

Lemma second_activation_abandons_first_player_witness :
  exists r3,
    Cleanup 0 (ExecuteInput 0 "In" (ExecuteInput 0 "In" Examples.rt_hit)) = Some r3 /\
    IsPlaying (Players r3 0) = true /\
    IsPlaying (Players r3 1) = false.
Proof.
  assert (Hms : GetMovieScene (Assets Examples.rt_hit 0) <> None) by discriminate.
  destruct (second_activation_abandons_first_player 0 "In" Examples.rt_hit 0 0
              eq_refl eq_refl Hms)
    as (_ & r3 & Hc & H2 & H1 & _).
  exists r3. repeat split; assumption.
Defined.

(** X7.  The sections belong to the sequence, not to a node: when node
    [b] has created its player on a sequence that node [a] has loaded as
    well, the [Cleanup] of [a] unbinds every flow section of the sequence
    while [b] still holds the sequence and its player. *)
Theorem Cleanup_unbinds_the_shared_sequence a b settings r seq ms :
  a <> b ->
  LoadedSequence (Nodes r a) = Some seq ->
  LoadAsset r (Sequence (Nodes r b)) = Some seq ->
  GetMovieScene (Assets r seq) = Some ms ->
  exists r1 r2 ms',
    CreatePlayer b settings r = Some r1 /\
    Cleanup a r1 = Some r2 /\
    LoadedSequence (Nodes r2 b) = Some seq /\
    SequencePlayer (Nodes r2 b) = Some (NextPlayer r) /\
    GetMovieScene (Assets r2 seq) = Some ms' /\
    AllFlowSectionsBoundTo None ms'.
Proof.
  intros Hab Hla Hlb Hms.
  pose proof (CreatePlayer_cases b settings r) as H. rewrite Hlb, Hms in H.
  destruct H as (r1 & Hc & _ & Hn & _ & Ha & _).
  assert (Hla1 : LoadedSequence (Nodes r1 a) = Some seq)
    by (rewrite Hn, upd_other; [exact Hla | exact Hab]).
  assert (Hms1 : GetMovieScene (Assets r1 seq) <> None)
    by (rewrite Ha, upd_same; discriminate).
  destruct (Cleanup_releases a r1) as (r2 & Hc2 & _ & _ & Hunbound & _).
  { intros seq' Hseq'. rewrite Hla1 in Hseq'. now injection Hseq' as <-. }
  destruct (Hunbound seq Hla1) as (ms' & Hg & Hall).
  exists r1, r2, ms'. split; [exact Hc | ]. split; [exact Hc2 | ].
  destruct (Cleanup_frame a r1 r2 Hc2) as (_ & _ & _ & _ & _ & Hnodes & _).
  rewrite (Hnodes b) by congruence. rewrite Hn, upd_same. cbn.
  repeat split; assumption.
Qed.

Lemma Cleanup_unbinds_the_shared_sequence_witness :
  exists r1 r2 ms',
    CreatePlayer 0 DefaultPlaybackSettings MoreExamples.rt_shared = Some r1 /\
    Cleanup 1 r1 = Some r2 /\
    SequencePlayer (Nodes r2 0) = Some 0 /\
    GetMovieScene (Assets r2 0) = Some ms' /\
    AllFlowSectionsBoundTo None ms'.
Proof.
  assert (Hab : 1 <> 0) by discriminate.
  destruct (Cleanup_unbinds_the_shared_sequence 1 0 DefaultPlaybackSettings
              MoreExamples.rt_shared 0 Examples.HitScene Hab eq_refl eq_refl eq_refl)
    as (r1 & r2 & ms' & Hc & Hc2 & _ & Hp & Hg & Hall).
  exists r1, r2, ms'. repeat split; assumption.
Defined.

(** ** Declared and triggered outputs *)

Lemma CallsSince_app r r' l :
  Trace r' = Trace r ++ l -> CallsSince r r' = l.
Proof.
  intros H. unfold CallsSince. rewrite H, skipn_app, skipn_all, Nat.sub_diag.
  reflexivity.
Qed.

(** X8.  The constructor leaves both pointers null and adds "PreStart",
    "Started" and "Completed", in this order, behind the inherited output
    names.  These are the outputs the node triggers by a fixed name: a
    successful [ExecuteInput] triggers "PreStart" then "Started", a failed
    one none, and [OnPlaybackFinished] triggers "Completed"; so each of
    them is a declared output. *)
Theorem fixed_outputs_are_declared Super_OutputNames this PinName r :
  Construct Super_OutputNames =
    (mkNode None None None,
     Super_OutputNames ++ ["PreStart"; "Started"; "Completed"]%string) /\
  (forall w seq,
     FlowSubsystemWorld r = Some w ->
     LoadAsset r (Sequence (Nodes r this)) = Some seq ->
     TriggeredOutputs (CallsSince r (ExecuteInput this PinName r)) =
       ["PreStart"; "Started"]%string) /\
  (FlowSubsystemWorld r = None \/ LoadAsset r (Sequence (Nodes r this)) = None ->
     TriggeredOutputs (CallsSince r (ExecuteInput this PinName r)) = []) /\
  TriggeredOutputs (CallsSince r (OnPlaybackFinished this r)) = ["Completed"%string] /\
  (forall name,
     In name (TriggeredOutputs (CallsSince r (ExecuteInput this PinName r))) \/
     In name (TriggeredOutputs (CallsSince r (OnPlaybackFinished this r))) ->
     In name (snd (Construct Super_OutputNames))).
Proof.
  assert (Hok : forall w seq,
             FlowSubsystemWorld r = Some w ->
             LoadAsset r (Sequence (Nodes r this)) = Some seq ->
             TriggeredOutputs (CallsSince r (ExecuteInput this PinName r)) =
               ["PreStart"; "Started"]%string).
  { intros w seq Hw Hl.
    destruct (ExecuteInput_succeeded this PinName r w seq Hw Hl) as (Ht & _).
    now rewrite (CallsSince_app _ _ _ Ht). }
  assert (Hfail : FlowSubsystemWorld r = None \/ LoadAsset r (Sequence (Nodes r this)) = None ->
             TriggeredOutputs (CallsSince r (ExecuteInput this PinName r)) = []).
  { intros Hf. rewrite (ExecuteInput_failed this PinName r Hf).
    now rewrite (CallsSince_app _ _ [Call_TriggerFirstOutput this false]). }
  assert (Hfin : TriggeredOutputs (CallsSince r (OnPlaybackFinished this r)) =
                 ["Completed"%string]).
  { now rewrite (CallsSince_app _ _ [Call_TriggerOutput this "Completed"%string None]). }
  split.
  { unfold Construct. now rewrite <- !app_assoc. }
  split; [exact Hok | ]. split; [exact Hfail | ]. split; [exact Hfin | ].
  intros name Hin. unfold Construct. cbn [snd]. rewrite <- !app_assoc. cbn [app].
  apply in_or_app. right.
  destruct Hin as [Hin | Hin].
  - destruct (FlowSubsystemWorld r) as [w | ] eqn:Hw.
    + destruct (LoadAsset r (Sequence (Nodes r this))) as [seq | ] eqn:Hl.
      * rewrite (Hok w seq eq_refl eq_refl) in Hin.
        destruct Hin as [<- | [<- | []]]; cbn; auto.
      * rewrite Hfail in Hin by now right. contradiction Hin.
    + rewrite Hfail in Hin by now left. contradiction Hin.
  - rewrite Hfin in Hin. destruct Hin as [<- | []]. cbn. auto.
Qed.

Lemma fixed_outputs_are_declared_witness :
  TriggeredOutputs (CallsSince Examples.rt_hit (ExecuteInput 0 "In" Examples.rt_hit)) =
    ["PreStart"; "Started"]%string /\
  In "Started"%string (snd (Construct ["Out"%string])).
Proof.
  destruct (fixed_outputs_are_declared ["Out"%string] 0 "In" Examples.rt_hit)
    as (_ & Hok & _ & _ & Hin).
  split; [exact (Hok 0 0 eq_refl eq_refl) | ].
  apply Hin. left. rewrite (Hok 0 0 eq_refl eq_refl). right. left. reflexivity.
Defined.

(** ** Time dilation and progress *)

(** X9.  [OnTimeDilationUpdate] sets the play rate of the player the node
    holds and of no other: after a successful [ExecuteInput] that is the
    new player; after a [Cleanup], as before any activation, no play rate
    changes. *)
Theorem OnTimeDilationUpdate_follows_the_player (Rate : Type) this PinName r
  (NewTimeDilation : Rate) (PlayRates : PlayerId -> Rate) :
  (forall w seq,
     FlowSubsystemWorld r = Some w ->
     LoadAsset r (Sequence (Nodes r this)) = Some seq ->
     let rates' := OnTimeDilationUpdate Rate this NewTimeDilation
                     (ExecuteInput this PinName r) PlayRates in
     rates' (NextPlayer r) = NewTimeDilation /\
     forall q, q <> NextPlayer r -> rates' q = PlayRates q) /\
  (forall r', Cleanup this r = Some r' ->
     OnTimeDilationUpdate Rate this NewTimeDilation r' PlayRates = PlayRates) /\
  (SequencePlayer (Nodes r this) = None ->
     OnTimeDilationUpdate Rate this NewTimeDilation r PlayRates = PlayRates).
Proof.
  split; [ | split].
  - intros w seq Hw Hl rates'. subst rates'. unfold OnTimeDilationUpdate.
    destruct (ExecuteInput_succeeded this PinName r w seq Hw Hl) as (_ & _ & Hp & _).
    rewrite Hp. split; [apply upd_same | intros q Hq; now apply upd_other].
  - intros r' Hc. unfold OnTimeDilationUpdate.
    destruct (Cleanup_releases this r) as (r'' & Hc' & _ & Hp & _).
    { intros seq Hseq Hnone.
      assert (Hf : Cleanup this r = None) by (apply Cleanup_faults_iff; now exists seq).
      congruence. }
    assert (r'' = r') by congruence. subst r''. now rewrite Hp.
  - intros Hp. unfold OnTimeDilationUpdate. now rewrite Hp.
Qed.

Lemma OnTimeDilationUpdate_follows_the_player_witness :
  OnTimeDilationUpdate nat 0 7 (ExecuteInput 0 "In" Examples.rt_hit) (fun _ => 1) 0 = 7 /\
  OnTimeDilationUpdate nat 0 7 (ExecuteInput 0 "In" Examples.rt_hit) (fun _ => 1) 4 = 1.
Proof.
  destruct (proj1 (OnTimeDilationUpdate_follows_the_player nat 0 "In" Examples.rt_hit 7
                     (fun _ => 1)) 0 0 eq_refl eq_refl) as [H0 Hq].
  split; [exact H0 | ]. apply Hq. discriminate.
Defined.

(** X10.  The status string is the playback progress.  After a successful
    [ExecuteInput] it is the current time and the duration of the new
    player with " / " between them; a failed [ExecuteInput] leaves it as
    it was; after [CreatePlayer], which does not start the player, and
    after [Cleanup] it is empty. *)
Theorem GetStatusString_over_the_life_of_the_node (Seconds : Type)
  (GetProgressAsString : Seconds -> FString)
  (GetCurrentTime GetDuration : PlayerId -> Seconds) this PinName r :
  let Status := GetStatusString Seconds GetProgressAsString GetCurrentTime GetDuration in
  (forall w seq,
     FlowSubsystemWorld r = Some w ->
     LoadAsset r (Sequence (Nodes r this)) = Some seq ->
     Status this (ExecuteInput this PinName r) =
       (GetProgressAsString (GetCurrentTime (NextPlayer r)) ++ " / "
        ++ GetProgressAsString (GetDuration (NextPlayer r)))%string) /\
  (FlowSubsystemWorld r = None \/ LoadAsset r (Sequence (Nodes r this)) = None ->
     Status this (ExecuteInput this PinName r) = Status this r) /\
  (forall settings r', CreatePlayer this settings r = Some r' ->
     LoadAsset r (Sequence (Nodes r this)) <> None ->
     Status this r' = EmptyString) /\
  (forall r', Cleanup this r = Some r' -> Status this r' = EmptyString).
Proof.
  intros Status. subst Status. unfold GetStatusString, GetPlaybackProgress.
  split; [ | split; [ | split]].
  - intros w seq Hw Hl.
    destruct (ExecuteInput_succeeded this PinName r w seq Hw Hl)
      as (_ & _ & Hp & _ & Hplay & _).
    now rewrite Hp, Hplay.
  - intros Hf. rewrite (ExecuteInput_failed this PinName r Hf). upd_simpl. reflexivity.
  - intros settings r' Hc Hl.
    pose proof (CreatePlayer_cases this settings r) as H.
    destruct (LoadAsset r (Sequence (Nodes r this))) as [seq | ]; [ | now contradiction Hl].
    destruct (GetMovieScene (Assets r seq)) as [ms | ]; [ | congruence].
    destruct H as (r'' & Hc' & _ & Hn & Hpl & _).
    assert (r'' = r') by congruence. subst r''.
    rewrite Hn, upd_same. cbn. now rewrite Hpl, upd_same.
  - intros r' Hc.
    destruct (Cleanup_releases this r) as (r'' & Hc' & _ & Hp & _).
    { intros seq Hseq Hnone.
      assert (Hf : Cleanup this r = None) by (apply Cleanup_faults_iff; now exists seq).
      congruence. }
    assert (r'' = r') by congruence. subst r''. now rewrite Hp.
Qed.

Lemma GetStatusString_over_the_life_of_the_node_witness :
  GetStatusString nat (fun n => if Nat.eqb n 2 then "2.00" else "9.50")%string
    (fun _ => 2) (fun _ => 9) 0 (ExecuteInput 0 "In" Examples.rt_hit)
  = "2.00 / 9.50"%string.
Proof.
  exact (proj1 (GetStatusString_over_the_life_of_the_node nat
                  (fun n => if Nat.eqb n 2 then "2.00" else "9.50")%string
                  (fun _ => 2) (fun _ => 9) 0 "In" Examples.rt_hit) 0 0 eq_refl eq_refl).
Defined.

(** ** Authored events and context outputs *)

(** X21.  The pins found at edit time are the outputs triggered at run
    time: a name is a context output of the node exactly when it is a
    non-empty event name authored in a flow section of a flow track of
    its sequence, and [OnSequenceEventExecuted] called for the node with
    such an event triggers the output of that very name and nothing
    else. *)
Theorem authored_events_are_the_context_outputs this r path seq ms name :
  Sequence (Nodes r this) = Some path ->
  Resolve r path = Some seq ->
  GetMovieScene (Assets r seq) = Some ms ->
  (In name (GetContextOutputs this r) <->
   In name (AuthoredEventNames ms) /\ name <> EmptyString) /\
  CallsSince r (OnSequenceEventExecuted (Some (Obj_PlayLevelSequence this)) name r) =
    [Call_TriggerOutput this name (Some false)].
Proof.
  intros Hs Hr Hms. split.
  - rewrite GetContextOutputs_formula, Hs, Hr, Hms. cbn [option_map].
    rewrite filter_In. unfold NonEmpty. split; intros [Hin Hne]; (split; [exact Hin | ]).
    + intros ->. discriminate Hne.
    + destruct name; [now contradiction Hne | reflexivity].
  - apply CallsSince_app. reflexivity.
Qed.

Lemma authored_events_are_the_context_outputs_witness :
  In "Hit"%string (GetContextOutputs 0 Examples.rt_hit) /\
  ~ In "Camera"%string (GetContextOutputs 0 Examples.rt_hit).
Proof.
  split.
  - apply (proj1 (authored_events_are_the_context_outputs 0 Examples.rt_hit "/Game/Seq" 0
                    Examples.HitScene "Hit" eq_refl eq_refl eq_refl)).
    split; [left; reflexivity | discriminate].
  - intros Hin.
    apply (proj1 (authored_events_are_the_context_outputs 0 Examples.rt_hit "/Game/Seq" 0
                    Examples.HitScene "Camera" eq_refl eq_refl eq_refl)) in Hin.
    destruct Hin as [Hin _]. cbn in Hin.
    repeat (destruct Hin as [Hin | Hin]; [discriminate Hin | ]). exact Hin.
Defined.

End PlayLevelSequenceExtra.

(** * Further properties of the search panel *)

Module FindInFlowExtra.
Import UnrealString FindInFlow FindInFlowMembers FindInFlowFacts.

(** ** Tokens *)

Lemma append_not_empty (cur : FString) c : (cur ++ String c EmptyString)%string <> EmptyString.
Proof. destruct cur; discriminate. Qed.

Lemma ParseIntoArray_from_nil cur s :
  ParseIntoArray_from cur s = [] <-> cur = EmptyString /\ OnlySpaces s = true.
Proof.
  revert cur. induction s as [ | c s IH]; intros cur; cbn.
  - destruct cur; cbn; split; try discriminate; auto.
    intros [H _]. discriminate H.
  - destruct (Ascii.eqb c " ") eqn:Hc; cbn.
    + destruct cur as [ | d cur]; cbn.
      * rewrite IH. split; intros [_ H]; auto.
      * split; [discriminate | intros [H _]; discriminate H].
    + rewrite IH. split.
      * intros [H _]. now apply append_not_empty in H.
      * intros [_ H]. discriminate H.
Qed.

Lemma ParseIntoArray_nil s : ParseIntoArray s = [] <-> OnlySpaces s = true.
Proof.
  unfold ParseIntoArray. rewrite ParseIntoArray_from_nil. split; [now intros [_ H] | auto].
Qed.

(** ** The results of the loop of MatchTokens *)

Lemma MatchTokensInChild_ChildHit Tokens Child ParentGraphNode acc :
  MatchTokensInChild Tokens Child ParentGraphNode acc =
  acc ++ ChildHit Tokens ParentGraphNode Child.
Proof.
  unfold MatchTokensInChild, ChildHit, bNodeMatchesSearch.
  destruct Child as [Child | ]; [ | now rewrite app_nil_r].
  destruct (StringMatchesSearchTokens Tokens (SearchString Child));
    [reflexivity | now rewrite app_nil_r].
Qed.

Lemma MatchTokensInChild_loop Tokens ParentGraphNode l acc :
  fold_left (fun acc Child => MatchTokensInChild Tokens Child ParentGraphNode acc) l acc =
  acc ++ flat_map (ChildHit Tokens ParentGraphNode) l.
Proof.
  revert acc. induction l as [ | Child l IH]; intros acc; cbn.
  - now rewrite app_nil_r.
  - now rewrite IH, MatchTokensInChild_ChildHit, app_assoc.
Qed.

Lemma SubGraphChildren_spec Tokens b Node :
  SubGraphChildren Tokens b Node =
  if b then flat_map (ChildHit Tokens Node) (SubGraphNodes Node) else [].
Proof.
  unfold SubGraphChildren, SubGraphNodes.
  destruct (Cast_FlowGraphNode Node) as [FlowNode | ]; [ | now destruct b].
  destruct b; [ | reflexivity].
  destruct (Cast_SubGraph FlowNode) as [SubGraphNode | ]; [ | reflexivity].
  destruct (GetAssetToEdit SubGraphNode) as [FlowAsset | ]; [ | reflexivity].
  now rewrite MatchTokensInChild_loop.
Qed.

Lemma ChildHits_nil Tokens Node l :
  flat_map (ChildHit Tokens Node) l = [] <->
  existsb (fun Child => match Child with
                        | Some Child => bNodeMatchesSearch Tokens Child
                        | None => false
                        end) l = false.
Proof.
  induction l as [ | Child l IH]; cbn; [split; reflexivity | ].
  destruct Child as [Child | ]; cbn; [ | exact IH].
  destruct (bNodeMatchesSearch Tokens Child); cbn; [ | exact IH].
  split; discriminate.
Qed.

Lemma MatchTokens_body_listed Tokens b Node :
  MatchTokens_body Tokens b [] Node =
  if IsListed Tokens b Node
  then [mkResult (GetNodeTitle Node) (Some Node) RootParent (SubGraphChildren Tokens b Node)]
  else [].
Proof.
  unfold MatchTokens_body, IsListed. cbn [Children app].
  rewrite SubGraphChildren_spec.
  destruct (bNodeMatchesSearch Tokens Node); [now rewrite orb_true_r | ].
  rewrite orb_false_r. cbn [orb].
  destruct b; cbn [andb]; [ | reflexivity].
  destruct (flat_map (ChildHit Tokens Node) (SubGraphNodes Node)) as [ | c cs] eqn:Hf.
  - apply ChildHits_nil in Hf. now rewrite Hf.
  - cbn. destruct (existsb _ (SubGraphNodes Node)) eqn:He; [reflexivity | ].
    apply (proj2 (ChildHits_nil Tokens Node _)) in He. congruence.
Qed.

Lemma hits_listed Tokens b nodes x :
  In x (flat_map (MatchTokens_body Tokens b []) nodes) <->
  exists Node, In Node nodes /\ IsListed Tokens b Node = true /\
    x = mkResult (GetNodeTitle Node) (Some Node) RootParent (SubGraphChildren Tokens b Node).
Proof.
  rewrite in_flat_map. split.
  - intros (Node & Hin & Hx). exists Node. rewrite MatchTokens_body_listed in Hx.
    destruct (IsListed Tokens b Node); [ | contradiction Hx].
    destruct Hx as [<- | []]. auto.
  - intros (Node & Hin & Hl & ->). exists Node. split; [exact Hin | ].
    rewrite MatchTokens_body_listed, Hl. now left.
Qed.

Lemma hits_in_graph_order Tokens b nodes :
  map GraphNode (flat_map (MatchTokens_body Tokens b []) nodes) =
  map Some (filter (IsListed Tokens b) nodes).
Proof.
  induction nodes as [ | Node nodes IH]; cbn; [reflexivity | ].
  rewrite map_app, IH, MatchTokens_body_listed.
  destruct (IsListed Tokens b Node); reflexivity.
Qed.

(** ** What a run of InitiateSearch keeps and sets *)

Lemma InitiateSearch_fields w w' :
  InitiateSearch w = Some w' ->
  SearchValue w' = SearchValue w /\
  FlowAssetEditorPtr w' = FlowAssetEditorPtr w /\
  bFindInSubGraph w' = bFindInSubGraph w /\
  TreeView w' = TreeView w
                ++ map (fun It => SetItemExpansion It false) (ItemsFound w)
                ++ [RequestTreeRefresh]
                ++ map (fun It => SetItemExpansion It true) (ItemsFound w') /\
  HighlightText w' = match ParseIntoArray (SearchValue w) with
                     | [] => HighlightText w
                     | _ :: _ => SearchValue w
                     end /\
  RootSearchResult w' =
    match ParseIntoArray (SearchValue w), FlowAssetEditorPtr w with
    | [], _ => RootSearchResult w
    | _ :: _, Some editor =>
        match FocusedGraph editor with
        | Some _ => Some (FFindInFlowResult_of "FlowEditorRoot")
        | None => None
        end
    | _ :: _, None => None
    end.
Proof.
  unfold InitiateSearch.
  destruct (ParseIntoArray (SearchValue w)) as [ | Token rest].
  - cbn. intros H. injection H as <-. cbn. rewrite <- !app_assoc. repeat split.
  - cbn [List.length Nat.ltb Nat.leb]. unfold MatchTokens.
    cbn [set_RootSearchResult set_HighlightText set_ItemsFound TreeView_calls
         FlowAssetEditorPtr bFindInSubGraph ItemsFound SearchValue].
    destruct (FlowAssetEditorPtr w) as [editor | ] eqn:He; [ | discriminate].
    destruct (FocusedGraph editor) as [Graph | ].
    + destruct (fold_left _ (Nodes Graph) []) as [ | hit hits];
        cbn; intros H; injection H as <-; cbn; rewrite <- !app_assoc;
        repeat split; exact He.
    + cbn. intros H. injection H as <-. cbn. rewrite <- !app_assoc.
      repeat split; exact He.
Qed.

Lemma SearchHits_fields w w' :
  SearchValue w' = SearchValue w ->
  FlowAssetEditorPtr w' = FlowAssetEditorPtr w ->
  bFindInSubGraph w' = bFindInSubGraph w ->
  SearchHits w' = SearchHits w.
Proof. intros Hs He Hb. unfold SearchHits. now rewrite Hs, He, Hb. Qed.

Lemma InitiateSearch_returns w editor :
  FlowAssetEditorPtr w = Some editor -> exists w', InitiateSearch w = Some w'.
Proof.
  intros He. destruct (InitiateSearch w) as [w' | ] eqn:Hrun; [now exists w' | ].
  apply InitiateSearch_faults_iff in Hrun. destruct Hrun as [Hnone _]. congruence.
Qed.

Lemma SearchHits_on_graph w editor Graph :
  FlowAssetEditorPtr w = Some editor ->
  FocusedGraph editor = Some Graph ->
  ParseIntoArray (SearchValue w) <> [] ->
  SearchHits w =
  flat_map (MatchTokens_body (ParseIntoArray (SearchValue w)) (bFindInSubGraph w) [])
           (Nodes Graph).
Proof.
  intros He Hg Hne. unfold SearchHits. rewrite He, Hg.
  destruct (ParseIntoArray (SearchValue w)); [now contradiction Hne | reflexivity].
Qed.

Lemma listed_iff w editor Graph w' Node :
  FlowAssetEditorPtr w = Some editor ->
  FocusedGraph editor = Some Graph ->
  ParseIntoArray (SearchValue w) <> [] ->
  InitiateSearch w = Some w' ->
  (exists x, In x (ItemsFound w') /\ GraphNode x = Some Node) <->
  In Node (Nodes Graph) /\
  IsListed (ParseIntoArray (SearchValue w)) (bFindInSubGraph w) Node = true.
Proof.
  intros He Hg Hne Hrun. apply InitiateSearch_items in Hrun.
  rewrite (SearchHits_on_graph w editor Graph He Hg Hne) in Hrun.
  set (T := ParseIntoArray (SearchValue w)) in *.
  set (b := bFindInSubGraph w) in *.
  split.
  - intros (x & Hin & Hnode).
    destruct (flat_map _ (Nodes Graph)) as [ | hit hits] eqn:Hflat; rewrite Hrun in Hin.
    + destruct Hin as [<- | []]. discriminate Hnode.
    + rewrite <- Hflat in Hin. apply hits_listed in Hin.
      destruct Hin as (Node' & Hin' & Hl & ->). cbn in Hnode. injection Hnode as <-. auto.
  - intros (Hin & Hl).
    assert (Hx : In (mkResult (GetNodeTitle Node) (Some Node) RootParent
                       (SubGraphChildren T b Node))
                    (flat_map (MatchTokens_body T b []) (Nodes Graph))).
    { apply hits_listed. exists Node. auto. }
    exists (mkResult (GetNodeTitle Node) (Some Node) RootParent (SubGraphChildren T b Node)).
    split; [ | reflexivity].
    destruct (flat_map _ (Nodes Graph)) as [ | hit hits]; [contradiction Hx | ].
    rewrite Hrun. exact Hx.
Qed.

(** ** The query *)

(** X11.  A query has no token exactly when it is made of spaces only
    (the empty query included).  Such a text typed into the search box
    gives the single entry "No Results found", whether or not an editor
    or a graph is there, and leaves the highlight text and the root
    result as they were; committing the text does what typing it does. *)
Theorem blank_query_gives_no_results Text w :
  (ParseIntoArray Text = [] <-> OnlySpaces Text = true) /\
  (OnlySpaces Text = true ->
   exists w',
     OnSearchTextChanged Text w = Some w' /\
     ItemsFound w' = [NoResults] /\
     SearchValue w' = Text /\
     HighlightText w' = HighlightText w /\
     RootSearchResult w' = RootSearchResult w) /\
  (forall CommitType, OnSearchTextCommitted Text CommitType w = OnSearchTextChanged Text w).
Proof.
  split; [apply ParseIntoArray_nil | ]. split; [ | reflexivity].
  intros Hblank. apply ParseIntoArray_nil in Hblank.
  unfold OnSearchTextChanged.
  destruct (InitiateSearch (set_SearchValue Text w)) as [w' | ] eqn:Hrun.
  - exists w'. split; [reflexivity | ].
    pose proof (InitiateSearch_items _ _ Hrun) as Hitems.
    destruct (InitiateSearch_fields _ _ Hrun) as (Hs & _ & _ & _ & Hh & Hr).
    cbn [SearchValue set_SearchValue] in *. rewrite Hblank in Hh, Hr.
    unfold SearchHits in Hitems. cbn [SearchValue set_SearchValue] in Hitems.
    rewrite Hblank in Hitems.
    repeat split; assumption.
  - apply InitiateSearch_faults_iff in Hrun. destruct Hrun as [_ Hne].
    cbn [SearchValue set_SearchValue] in Hne. now contradiction Hne.
Qed.

Lemma blank_query_gives_no_results_witness :
  exists w',
    OnSearchTextChanged "   " (Examples.panel "play") = Some w' /\
    ItemsFound w' = [NoResults].
Proof.
  destruct (proj1 (proj2 (blank_query_gives_no_results "   " (Examples.panel "play")))
              eq_refl) as (w' & Hrun & Hitems & _).
  exists w'. split; assumption.
Defined.

(** ** The result list *)

(** X12.  A search with tokens on an available graph lists one result
    for every node of the graph that matches directly or, the sub-graph
    search being on, has a matching node in its sub-graph: in the order
    of the graph, each under the root result and named by the title of
    its node.  When there is no such node the list is the single "No
    Results found". *)
Theorem results_follow_the_graph w editor Graph :
  FlowAssetEditorPtr w = Some editor ->
  FocusedGraph editor = Some Graph ->
  ParseIntoArray (SearchValue w) <> [] ->
  let listed :=
    filter (IsListed (ParseIntoArray (SearchValue w)) (bFindInSubGraph w)) (Nodes Graph) in
  exists w',
    InitiateSearch w = Some w' /\
    (listed = [] -> ItemsFound w' = [NoResults]) /\
    (listed <> [] ->
       map GraphNode (ItemsFound w') = map Some listed /\
       forall x, In x (ItemsFound w') ->
         Parent_of x = RootParent /\
         exists Node, GraphNode x = Some Node /\ Value x = GetNodeTitle Node).
Proof.
  intros He Hg Hne listed.
  destruct (InitiateSearch_returns w editor He) as (w' & Hrun).
  exists w'. split; [exact Hrun | ].
  apply InitiateSearch_items in Hrun.
  rewrite (SearchHits_on_graph w editor Graph He Hg Hne) in Hrun.
  pose proof (hits_in_graph_order (ParseIntoArray (SearchValue w)) (bFindInSubGraph w)
                (Nodes Graph)) as Hord.
  fold listed in Hord.
  destruct (flat_map _ (Nodes Graph)) as [ | hit hits] eqn:Hflat.
  - split; [intros _; exact Hrun | ].
    intros Hl. cbn in Hord. destruct listed; [now contradiction Hl | discriminate Hord].
  - split.
    + intros Hl. rewrite Hl in Hord. discriminate Hord.
    + intros _. rewrite Hrun. split; [exact Hord | ].
      intros x Hin. rewrite <- Hflat in Hin. apply hits_listed in Hin.
      destruct Hin as (Node & _ & _ & ->). cbn. split; [reflexivity | ].
      exists Node. split; reflexivity.
Qed.

Lemma results_follow_the_graph_witness :
  exists w',
    InitiateSearch (Examples.panel "graph") = Some w' /\
    map GraphNode (ItemsFound w') = [Some Examples.PlayNode; Some Examples.StartNode].
Proof.
  assert (Hne : ParseIntoArray (SearchValue (Examples.panel "graph")) <> [])
    by discriminate.
  destruct (results_follow_the_graph (Examples.panel "graph") _ _ eq_refl eq_refl Hne)
    as (w' & Hrun & _ & Hsome).
  exists w'. split; [exact Hrun | ].
  apply Hsome. discriminate.
Defined.

(** X13.  The results under a node are the matching nodes of its
    sub-graph, in the order of the asset, null graph nodes skipped; each
    is matched on its own text, points back to the node and has no
    children of its own: the search goes one level deep.  There are none
    when the sub-graph search is off.  [OnGetChildren] appends them. *)
Theorem subgraph_results_are_one_level_deep Tokens b Node :
  SubGraphChildren Tokens b Node =
    (if b then flat_map (ChildHit Tokens Node) (SubGraphNodes Node) else []) /\
  (forall x Out, GraphNode x = Some Node ->
     Children x = SubGraphChildren Tokens b Node ->
     OnGetChildren x Out = Out ++ SubGraphChildren Tokens b Node) /\
  (forall c, In c (SubGraphChildren Tokens b Node) ->
     b = true /\
     Children c = [] /\
     Parent_of c = NodeParent Node /\
     exists Child,
       In (Some Child) (SubGraphNodes Node) /\
       bNodeMatchesSearch Tokens Child = true /\
       GraphNode c = Some Child /\
       Value c = GetNodeTitle Child) /\
  (forall Child,
     b = true ->
     In (Some Child) (SubGraphNodes Node) ->
     bNodeMatchesSearch Tokens Child = true ->
     In (mkResult (GetNodeTitle Child) (Some Child) (NodeParent Node) [])
        (SubGraphChildren Tokens b Node)).
Proof.
  split; [apply SubGraphChildren_spec | ].
  split; [intros x Out _ Hc; unfold OnGetChildren; now rewrite Hc | ].
  rewrite SubGraphChildren_spec. split.
  - intros c Hin. destruct b; [ | contradiction Hin]. split; [reflexivity | ].
    apply in_flat_map in Hin. destruct Hin as (Child & Hin & Hc).
    destruct Child as [Child | ]; [ | contradiction Hc]. cbn in Hc.
    destruct (bNodeMatchesSearch Tokens Child) eqn:Hm; [ | contradiction Hc].
    destruct Hc as [<- | []]. cbn. split; [reflexivity | ]. split; [reflexivity | ].
    exists Child. auto.
  - intros Child -> Hin Hm. apply in_flat_map. exists (Some Child).
    split; [exact Hin | ]. cbn. rewrite Hm. now left.
Qed.

Lemma subgraph_results_are_one_level_deep_witness :
  In (mkResult "Play" (Some Examples.PlayNode) (NodeParent MoreExamples.SubGraphNode) [])
     (SubGraphChildren ["seq"%string] true MoreExamples.SubGraphNode).
Proof.
  apply (proj2 (proj2 (proj2 (subgraph_results_are_one_level_deep
                                ["seq"%string] true MoreExamples.SubGraphNode)))
           Examples.PlayNode eq_refl).
  - left. reflexivity.
  - reflexivity.
Defined.

(** ** Monotonicity *)




Lemma IsListed_flag T Node :
  IsListed T false Node = true -> IsListed T true Node = true.
Proof.
  unfold IsListed. rewrite !orb_true_iff. cbn [andb].
  intros [H | H]; [now left | discriminate H].
Qed.



(** X15.  Turning the sub-graph search on never removes a node from the
    results: every node listed with the box unchecked is listed with the
    box checked.  An undetermined box counts as unchecked. *)
Theorem subgraph_search_only_adds w editor Graph :
  FlowAssetEditorPtr w = Some editor ->
  FocusedGraph editor = Some Graph ->
  ParseIntoArray (SearchValue w) <> [] ->
  OnFindInSubGraphStateChanged Undetermined w = OnFindInSubGraphStateChanged Unchecked w /\
  exists w0 w1,
    OnFindInSubGraphStateChanged Unchecked w = Some w0 /\
    OnFindInSubGraphStateChanged Checked w = Some w1 /\
    bFindInSubGraph w0 = false /\
    bFindInSubGraph w1 = true /\
    forall Node,
      (exists x, In x (ItemsFound w0) /\ GraphNode x = Some Node) ->
      (exists x, In x (ItemsFound w1) /\ GraphNode x = Some Node).
Proof.
  intros He Hg Hne. split; [reflexivity | ]. unfold OnFindInSubGraphStateChanged.
  destruct (InitiateSearch_returns (set_bFindInSubGraph false w) editor He) as (w0 & H0).
  destruct (InitiateSearch_returns (set_bFindInSubGraph true w) editor He) as (w1 & H1).
  exists w0, w1. split; [exact H0 | ]. split; [exact H1 | ].
  split; [exact (proj1 (proj2 (proj2 (InitiateSearch_fields _ _ H0)))) | ].
  split; [exact (proj1 (proj2 (proj2 (InitiateSearch_fields _ _ H1)))) | ].
  intros Node Hin.
  apply (listed_iff (set_bFindInSubGraph true w) editor Graph w1 Node He Hg Hne H1).
  apply (listed_iff (set_bFindInSubGraph false w) editor Graph w0 Node He Hg Hne H0) in Hin.
  cbn [SearchValue set_bFindInSubGraph bFindInSubGraph] in *.
  destruct Hin as [Hn Hl]. split; [exact Hn | now apply IsListed_flag].
Qed.

Lemma subgraph_search_only_adds_witness :
  exists w0 w1,
    OnFindInSubGraphStateChanged Unchecked (MoreExamples.sub_panel "seq" true) = Some w0 /\
    OnFindInSubGraphStateChanged Checked (MoreExamples.sub_panel "seq" true) = Some w1 /\
    ItemsFound w0 = [NoResults] /\
    map GraphNode (ItemsFound w1) = [Some MoreExamples.SubGraphNode].
Proof.
  assert (Hne : ParseIntoArray (SearchValue (MoreExamples.sub_panel "seq" true)) <> [])
    by discriminate.
  destruct (subgraph_search_only_adds (MoreExamples.sub_panel "seq" true) _ _
              eq_refl eq_refl Hne) as (_ & w0 & w1 & H0 & H1 & _).
  exists w0, w1. split; [exact H0 | ]. split; [exact H1 | ].
  cbv in H0, H1. injection H0 as <-. injection H1 as <-. split; reflexivity.
Defined.

(** ** Order and case of the tokens *)

Lemma StringMatchesSearchTokens_equiv T T' s :
  (forall t, In t T -> exists t', In t' T' /\ ToLowerString t' = ToLowerString t) ->
  (forall t', In t' T' -> exists t, In t T /\ ToLowerString t = ToLowerString t') ->
  StringMatchesSearchTokens T s = StringMatchesSearchTokens T' s.
Proof.
  intros H12 H21. apply Bool.eq_iff_eq_true.
  rewrite !StringMatchesSearchTokens_spec, !Forall_forall.
  unfold IsSubstringIgnoringCase. split.
  - intros H t' Hin'. destruct (H21 t' Hin') as (t & Hin & Heq).
    rewrite <- Heq. now apply H.
  - intros H t Hin. destruct (H12 t Hin) as (t' & Hin' & Heq).
    rewrite <- Heq. now apply H.
Qed.

Lemma flat_map_ext_all {A B : Type} (f g : A -> list B) l :
  (forall x, f x = g x) -> flat_map f l = flat_map g l.
Proof.
  intros H. induction l as [ | x l IH]; cbn; [reflexivity | now rewrite H, IH].
Qed.

Lemma MatchTokens_ext T T' w :
  (forall s, StringMatchesSearchTokens T s = StringMatchesSearchTokens T' s) ->
  MatchTokens T w = MatchTokens T' w.
Proof.
  intros Heq.
  assert (Hm : forall Node, bNodeMatchesSearch T Node = bNodeMatchesSearch T' Node)
    by (intros Node; apply Heq).
  assert (Hc : forall P Child, ChildHit T P Child = ChildHit T' P Child).
  { intros P [Child | ]; [ | reflexivity]. cbn. now rewrite Hm. }
  assert (Hs : forall b Node, SubGraphChildren T b Node = SubGraphChildren T' b Node).
  { intros b Node. rewrite !SubGraphChildren_spec. destruct b; [ | reflexivity].
    apply flat_map_ext_all. intros Child. apply Hc. }
  assert (Hb : forall b Node, MatchTokens_body T b [] Node = MatchTokens_body T' b [] Node).
  { intros b Node. unfold MatchTokens_body. now rewrite Hs, Hm. }
  unfold MatchTokens.
  destruct (FlowAssetEditorPtr (set_RootSearchResult None w)) as [editor | ]; [ | reflexivity].
  destruct (FocusedGraph editor) as [Graph | ]; [ | reflexivity].
  rewrite !MatchTokens_loop. do 3 f_equal. apply flat_map_ext_all. intros Node. apply Hb.
Qed.

(** X16.  [MatchTokens] does not depend on the order of the tokens, on a
    token being repeated, or on the case of the letters [A] to [Z] in
    them: two token lists that are the same set once lowered give the
    same panel. *)
Theorem tokens_count_as_a_set_of_lowered_words T T' w :
  (forall t, In t T -> exists t', In t' T' /\ ToLowerString t' = ToLowerString t) ->
  (forall t', In t' T' -> exists t, In t T /\ ToLowerString t = ToLowerString t') ->
  MatchTokens T w = MatchTokens T' w /\
  (forall s, StringMatchesSearchTokens T s = StringMatchesSearchTokens T' s).
Proof.
  intros H12 H21.
  assert (Heq : forall s, StringMatchesSearchTokens T s = StringMatchesSearchTokens T' s)
    by (intros s; now apply StringMatchesSearchTokens_equiv).
  split; [now apply MatchTokens_ext | exact Heq].
Qed.

Lemma tokens_count_as_a_set_of_lowered_words_witness :
  MatchTokens ["Play"; "seq"; "PLAY"]%string (Examples.panel "") =
  MatchTokens ["SEQ"; "play"]%string (Examples.panel "").
Proof.
  apply tokens_count_as_a_set_of_lowered_words.
  - intros t [<- | [<- | [<- | []]]].
    + exists "play"%string. split; [right; left; reflexivity | reflexivity].
    + exists "SEQ"%string. split; [left; reflexivity | reflexivity].
    + exists "play"%string. split; [right; left; reflexivity | reflexivity].
  - intros t [<- | [<- | []]].
    + exists "seq"%string. split; [right; left; reflexivity | reflexivity].
    + exists "Play"%string. split; [left; reflexivity | reflexivity].
Defined.

(** ** Searching again *)

(** X17.  The results of a search do not depend on the results that were
    shown before, and searching again shows the same results.  On the
    tree view a search collapses every item shown before, asks for one
    refresh, then expands every item found, in this order. *)
Theorem searching_again_shows_the_same w w1 :
  InitiateSearch w = Some w1 ->
  TreeView w1 = TreeView w
                ++ map (fun It => SetItemExpansion It false) (ItemsFound w)
                ++ [RequestTreeRefresh]
                ++ map (fun It => SetItemExpansion It true) (ItemsFound w1) /\
  (forall before w1',
     InitiateSearch (set_ItemsFound before w) = Some w1' ->
     ItemsFound w1' = ItemsFound w1) /\
  exists w2,
    InitiateSearch w1 = Some w2 /\
    ItemsFound w2 = ItemsFound w1 /\
    TreeView w2 = TreeView w1
                  ++ map (fun It => SetItemExpansion It false) (ItemsFound w1)
                  ++ [RequestTreeRefresh]
                  ++ map (fun It => SetItemExpansion It true) (ItemsFound w1).
Proof.
  intros Hrun.
  destruct (InitiateSearch_fields w w1 Hrun) as (Hs & He & Hb & Ht & _).
  pose proof (InitiateSearch_items w w1 Hrun) as Hitems.
  split; [exact Ht | ]. split.
  - intros before w1' Hrun'. apply InitiateSearch_items in Hrun'.
    rewrite Hrun', Hitems. reflexivity.
  - destruct (InitiateSearch w1) as [w2 | ] eqn:Hrun2.
    + exists w2. split; [reflexivity | ].
      pose proof (InitiateSearch_items w1 w2 Hrun2) as Hitems2.
      rewrite (SearchHits_fields w w1 Hs He Hb) in Hitems2.
      assert (Hsame : ItemsFound w2 = ItemsFound w1) by congruence.
      split; [exact Hsame | ].
      destruct (InitiateSearch_fields w1 w2 Hrun2) as (_ & _ & _ & Ht2 & _).
      now rewrite Hsame in Ht2.
    + exfalso. apply InitiateSearch_faults_iff in Hrun2. rewrite Hs, He in Hrun2.
      apply InitiateSearch_faults_iff in Hrun2. congruence.
Qed.

Lemma searching_again_shows_the_same_witness :
  exists w1 w2,
    InitiateSearch (Examples.panel "play") = Some w1 /\
    InitiateSearch w1 = Some w2 /\
    ItemsFound w2 = ItemsFound w1.
Proof.
  destruct (InitiateSearch (Examples.panel "play")) as [w1 | ] eqn:Hrun;
    [ | discriminate Hrun].
  destruct (searching_again_shows_the_same (Examples.panel "play") w1 Hrun)
    as (_ & _ & w2 & Hrun2 & Hsame & _).
  exists w1, w2. repeat split; assumption.
Defined.


(** ** Selecting a result *)




(** ** The columns of a row *)

Lemma eqb_ToLower_underscore c :
  Ascii.eqb (ToLower c) (ToLower "_") = Ascii.eqb c "_".
Proof.
  destruct c as [b0 b1 b2 b3 b4 b5 b6 b7].
  destruct b0, b1, b2, b3, b4, b5, b6, b7; reflexivity.
Qed.

Lemma Find_underscore_none s : HasChar "_" s = false -> Find s "_" = None.
Proof.
  induction s as [ | c s IH]; cbn; [reflexivity | ].
  rewrite eqb_ToLower_underscore. intros H. apply orb_false_iff in H. destruct H as [Hc Hs].
  rewrite Hc. cbn. now rewrite (IH Hs).
Qed.

Lemma Find_underscore_first pre rest :
  HasChar "_" pre = false ->
  Find (pre ++ String "_" rest)%string "_" = Some (String.length pre).
Proof.
  induction pre as [ | c pre IH]; cbn.
  - intros _. reflexivity.
  - rewrite eqb_ToLower_underscore. intros H. apply orb_false_iff in H.
    destruct H as [Hc Hs]. rewrite Hc. cbn. now rewrite (IH Hs).
Qed.

Lemma RightChop_prefix pre c rest :
  RightChop (String.length pre + 1) (pre ++ String c rest)%string = rest.
Proof. induction pre as [ | d pre IH]; cbn; [reflexivity | exact IH]. Qed.

(** X19.  The type column of a row shows the class name of the node (of
    the flow node, for a flow graph node) from behind its first
    underscore, and the whole class name when it has no underscore; a
    row without graph node shows nothing. *)
Theorem GetNodeTypeText_drops_the_class_prefix
  (FlowNodeClassName : UFlowGraphNode -> FString) x :
  (GraphNode x = None -> GetNodeTypeText FlowNodeClassName x = EmptyString) /\
  (forall Node, GraphNode x = Some Node ->
     let NodeClassName :=
       match Cast_FlowGraphNode Node with
       | Some FlowNode => FlowNodeClassName FlowNode
       | None => GetClassName Node
       end in
     (HasChar "_" NodeClassName = false ->
        GetNodeTypeText FlowNodeClassName x = NodeClassName) /\
     (forall pre rest,
        NodeClassName = (pre ++ "_" ++ rest)%string ->
        HasChar "_" pre = false ->
        GetNodeTypeText FlowNodeClassName x = rest)).
Proof.
  unfold GetNodeTypeText. split; [now intros -> | ].
  intros Node Hx. cbv zeta. rewrite Hx. unfold ChopClassPrefix.
  generalize (match Cast_FlowGraphNode Node with
              | Some FlowNode => FlowNodeClassName FlowNode
              | None => GetClassName Node
              end).
  intros NodeClassName. split.
  - intros Hno. now rewrite (Find_underscore_none _ Hno).
  - intros pre rest -> Hpre. cbn [append].
    rewrite (Find_underscore_first pre rest Hpre). apply RightChop_prefix.
Qed.

Lemma GetNodeTypeText_drops_the_class_prefix_witness :
  GetNodeTypeText (fun _ => "FlowNode_Play_Level"%string)
    (mkResult "Play" (Some Examples.PlayNode) RootParent []) = "Play_Level"%string.
Proof.
  apply (proj2 (proj2 (GetNodeTypeText_drops_the_class_prefix
                         (fun _ => "FlowNode_Play_Level"%string)
                         (mkResult "Play" (Some Examples.PlayNode) RootParent []))
                  Examples.PlayNode eq_refl) "FlowNode"%string "Play_Level"%string);
    reflexivity.
Defined.



End FindInFlowExtra.
